(** * fix_super_calls.py: the constructor-call patcher

    A shallow embedding of [src/fix_super_calls.py] and the proofs of its
    specification.  The script reads each listed file, applies two
    [re.sub] rewrites to the whole text, writes the file back when the
    text changed and prints one line per file plus a total.

    Layout:
    - [Re]: the fragment of Python's backtracking [re] engine the script
      uses (literals, character sets, greedy repetition, alternation,
      capture groups), [Pattern.match], [re.search] and [re.sub];
    - [Script]: the two patterns, the two replacement callbacks, the
      whole-text transformation and the per-file loop over a file system;
    - the definitions the proofs use, among them the run over the files
      as the specification words it;
    - the proofs, ending in the properties C1 to C10 of the
      specification. *)

From Stdlib Require Import String Ascii NArith DecimalString.
From stdpp Require Import gmap list.

Local Open Scope N_scope.

(** ** Text

    A Python [str] is a sequence of Unicode code points. *)

Abbreviation char := N.
Abbreviation str := (list N).

(** A literal of the source, as code points. *)
Definition py (s : string) : str :=
  map N_of_ascii (list_ascii_of_string s).

Definition chr (a : ascii) : char := N_of_ascii a.

(** The newline written [\n] in the source. *)
Definition nl : char := 10.

(** ** The regular-expression engine *)

Module Re.

(** [\s] on a [str] pattern: the code points for which [str.isspace]
    holds. *)
Definition is_space (c : char) : bool :=
  ((0x09 <=? c) && (c <=? 0x0D)) || ((0x1C <=? c) && (c <=? 0x20))
  || (c =? 0x85) || (c =? 0xA0) || (c =? 0x1680)
  || ((0x2000 <=? c) && (c <=? 0x200A))
  || (c =? 0x2028) || (c =? 0x2029) || (c =? 0x202F) || (c =? 0x205F)
  || (c =? 0x3000).

Inductive regex : Type :=
| Eps                          (* the empty pattern *)
| Chr (c : char)               (* a literal character *)
| In_ (p : char -> bool)       (* a set [...] or a category such as \s *)
| Cat (r1 r2 : regex)          (* r1 r2 *)
| Alt (r1 r2 : regex)          (* r1|r2, r1 tried first *)
| Star (r : regex)             (* r*, greedy *)
| Grp (i : nat) (r : regex).   (* the i-th capture group (r) *)

(** [r+], greedy: one [r], then [r*]. *)
Definition Plus (r : regex) : regex := Cat r (Star r).

(** A run of literal characters. *)
Fixpoint lit (s : str) : regex :=
  match s with
  | [] => Eps
  | c :: s' => Cat (Chr c) (lit s')
  end.

(** The groups of a match object, most recently closed first. *)
Abbreviation groups := (list (nat * list N)).

(** [m.group(i)]: [None] when the group took no part in the match. *)
Fixpoint group (m : groups) (i : nat) : option str :=
  match m with
  | [] => None
  | (j, v) :: m' => if Nat.eqb i j then Some v else group m' i
  end.

(** A successful match: its groups and the text after it. *)
Abbreviation result := (list (nat * list N) * list N)%type.

(** The loop of a greedy [r*]: one more [body] while it consumes
    something, falling back to the continuation [k].  Each round
    consumes a character, so [length s] rounds are enough. *)
Fixpoint star_loop
    (body : str -> groups -> (str -> groups -> option result) -> option result)
    (k : str -> groups -> option result)
    (n : nat) (s : str) (g : groups) : option result :=
  match n with
  | O => k s g
  | S n' =>
      match body s g (fun s' g' =>
                        if (length s' <? length s)%nat
                        then star_loop body k n' s' g' else None) with
      | Some x => Some x
      | None => k s g
      end
  end.

(** The backtracking matcher: [rmatch r s g k] matches [r] at the head of
    [s] and hands the remaining text and the groups to [k]; when [k]
    fails, the next alternative is tried. *)
Fixpoint rmatch (r : regex) (s : str) (g : groups)
    (k : str -> groups -> option result) : option result :=
  match r with
  | Eps => k s g
  | Chr c =>
      match s with
      | x :: s' => if x =? c then k s' g else None
      | [] => None
      end
  | In_ p =>
      match s with
      | x :: s' => if p x then k s' g else None
      | [] => None
      end
  | Cat r1 r2 => rmatch r1 s g (fun s' g' => rmatch r2 s' g' k)
  | Alt r1 r2 =>
      match rmatch r1 s g k with
      | Some x => Some x
      | None => rmatch r2 s g k
      end
  | Star r1 => star_loop (rmatch r1) k (length s) s g
  | Grp i r1 =>
      rmatch r1 s g
        (fun s' g' => k s' ((i, take (length s - length s') s) :: g'))
  end.

(** [Pattern.match] at the head of [s]. *)
Definition re_match (p : regex) (s : str) : option result :=
  rmatch p s [] (fun s' g => Some (g, s')).

(** [re.search]: the leftmost position where the pattern matches. *)
Fixpoint re_search (p : regex) (s : str) : option result :=
  match re_match p s with
  | Some x => Some x
  | None =>
      match s with
      | [] => None
      | _ :: s' => re_search p s'
      end
  end.

(** One step of a substitution: the replacement text for a match at the
    head of the text, and the text after the match. *)
Definition sub_step (p : regex) (repl : groups -> str) (s : str)
  : option (str * str) :=
  match re_match p s with
  | Some (m, rest) => Some (repl m, rest)
  | None => None
  end.

(** The scan of [re.sub]: at a match, emit the replacement and go on
    after it; otherwise copy one character.  A match that consumes
    nothing is replaced and one character is copied; the patterns of
    this script never match the empty string ([step1_progress],
    [step2_progress]).  Each round consumes a character, so a fuel above
    the length of the text is never used up ([sub_loop_fuel]). *)
Fixpoint sub_loop (step : str -> option (str * str)) (fuel : nat) (s : str)
  : str :=
  match fuel with
  | O => s
  | S fuel' =>
      match step s with
      | Some (out, rest) =>
          out ++ (if (length rest <? length s)%nat
                  then sub_loop step fuel' rest
                  else match s with
                       | [] => []
                       | c :: s' => c :: sub_loop step fuel' s'
                       end)
      | None =>
          match s with
          | [] => []
          | c :: s' => c :: sub_loop step fuel' s'
          end
      end
  end.

Definition sub (step : str -> option (str * str)) (s : str) : str :=
  sub_loop step (S (length s)) s.

(** [re.sub(pattern, repl, string)] with a callable [repl]. *)
Definition re_sub (p : regex) (repl : groups -> str) (s : str) : str :=
  sub (sub_step p repl) s.

End Re.

(** ** The script *)

Module Script.
Import Re.

(** [[0-9.]] *)
Definition digit_or_dot (c : char) : bool :=
  ((chr "0" <=? c) && (c <=? chr "9")) || (c =? chr ".").

(** [r'super\(([0-9.]+),\s*(true|false)\s*\);'] *)
Definition pattern1 : regex :=
  Cat (lit (py "super("))
 (Cat (Grp 1 (Plus (In_ digit_or_dot)))
 (Cat (Chr (chr ","))
 (Cat (Star (In_ is_space))
 (Cat (Grp 2 (Alt (lit (py "true")) (lit (py "false"))))
 (Cat (Star (In_ is_space))
      (lit (py ");"))))))).

(** [r'super\(([0-9.]+)\);'] *)
Definition pattern2 : regex :=
  Cat (lit (py "super("))
 (Cat (Grp 1 (Plus (In_ digit_or_dot)))
      (lit (py ");"))).

(** What an f-string prints for a group: its text, or [None]. *)
Definition fmt (v : option str) : str :=
  match v with
  | Some s => s
  | None => py "None"
  end.

Definition replace_two_params (m : groups) : str :=
  let weight := group m 1 in
  let enabled := group m 2 in
  py "super();" ++ nl :: py "        setWeight(" ++ fmt weight ++ py ");"
    ++ nl :: py "        setEnabled(" ++ fmt enabled ++ py ");".

Definition replace_one_param (m : groups) : str :=
  let weight := group m 1 in
  py "super();" ++ nl :: py "        setWeight(" ++ fmt weight ++ py ");".

(** The two [re.sub] calls of the loop body, in the order of the
    source. *)
Definition rule1 (content : str) : str :=
  re_sub pattern1 replace_two_params content.

Definition rule2 (content : str) : str :=
  re_sub pattern2 replace_one_param content.

Definition transform (content : str) : str :=
  rule2 (rule1 content).

(** *** The files and the loop over them

    The file system maps each existing path to the text that
    [open(path, 'r', encoding='utf-8').read()] returns for it; the script
    reads and writes plain text files (reading a directory or bytes that
    are not UTF-8 raises, and is outside this model).  [writes] logs each
    [open(path, 'w')] with the text written, in order. *)

Record state : Type := {
  fs : gmap (list N) (list N);
  stdout : str;
  fixed_count : nat;
  writes : list (str * str)
}.

(** [str(n)] of a natural number, as an f-string prints it. *)
Definition str_of_nat (n : nat) : str :=
  py (NilZero.string_of_uint (Nat.to_uint n)).

(** [print(line)]. *)
Definition print (line : str) (st : state) : state :=
  {| fs := fs st;
     stdout := stdout st ++ line ++ [nl];
     fixed_count := fixed_count st;
     writes := writes st |}.

(** [with open(file_path, 'w', encoding='utf-8') as f: f.write(content)] *)
Definition write_file (file_path content : str) (st : state) : state :=
  {| fs := <[file_path := content]> (fs st);
     stdout := stdout st;
     fixed_count := fixed_count st;
     writes := writes st ++ [(file_path, content)] |}.

Definition incr_fixed_count (st : state) : state :=
  {| fs := fs st;
     stdout := stdout st;
     fixed_count := S (fixed_count st);
     writes := writes st |}.

(** The body of [for file_path in files]. *)
Definition process_file (file_path : str) (st : state) : state :=
  match fs st !! file_path with
  | None => print (py "SKIP: " ++ file_path ++ py " not found") st
  | Some content =>
      let original_content := content in
      let content := transform content in
      if decide (content <> original_content)
      then print (py "FIXED: " ++ file_path)
             (incr_fixed_count (write_file file_path content st))
      else print (py "NO CHANGE: " ++ file_path) st
  end.

Fixpoint loop (files : list str) (st : state) : state :=
  match files with
  | [] => st
  | file_path :: files' => loop files' (process_file file_path st)
  end.

Definition init (disk : gmap (list N) (list N)) : state :=
  {| fs := disk; stdout := []; fixed_count := 0; writes := [] |}.

(** The whole script over a list of paths. *)
Definition run (files : list str) (disk : gmap (list N) (list N)) : state :=
  let st := loop files (init disk) in
  print (nl :: py "Total files fixed: " ++ str_of_nat (fixed_count st)) st.

(** The list of files to fix. *)
Definition files : list str := [
    py "src/main/java/me/javavirtualenv/behavior/aquatic/AxolotlHuntingBehavior.java";
    py "src/main/java/me/javavirtualenv/behavior/aquatic/AxolotlPlayDeadBehavior.java";
    py "src/main/java/me/javavirtualenv/behavior/aquatic/CurrentRidingBehavior.java";
    py "src/main/java/me/javavirtualenv/behavior/aquatic/DolphinTreasureHuntBehavior.java";
    py "src/main/java/me/javavirtualenv/behavior/aquatic/DolphinWaveRidingBehavior.java";
    py "src/main/java/me/javavirtualenv/behavior/aquatic/GlowSquidPreyAttractionBehavior.java";
    py "src/main/java/me/javavirtualenv/behavior/aquatic/InkCloudBehavior.java";
    py "src/main/java/me/javavirtualenv/behavior/aquatic/PufferfishInflateBehavior.java";
    py "src/main/java/me/javavirtualenv/behavior/aquatic/SalmonUpstreamBehavior.java";
    py "src/main/java/me/javavirtualenv/behavior/aquatic/TadpoleMetamorphosisBehavior.java";
    py "src/main/java/me/javavirtualenv/behavior/aquatic/VerticalMigrationBehavior.java";
    py "src/main/java/me/javavirtualenv/behavior/feline/ClimbingBehavior.java";
    py "src/main/java/me/javavirtualenv/behavior/feline/CreeperDetectionBehavior.java";
    py "src/main/java/me/javavirtualenv/behavior/feline/CreepingBehavior.java";
    py "src/main/java/me/javavirtualenv/behavior/feline/FallDamageReductionBehavior.java";
    py "src/main/java/me/javavirtualenv/behavior/feline/GiftGivingBehavior.java";
    py "src/main/java/me/javavirtualenv/behavior/feline/HissBehavior.java";
    py "src/main/java/me/javavirtualenv/behavior/feline/PhantomRepelBehavior.java";
    py "src/main/java/me/javavirtualenv/behavior/feline/PlayBehavior.java";
    py "src/main/java/me/javavirtualenv/behavior/feline/PounceBehavior.java";
    py "src/main/java/me/javavirtualenv/behavior/feline/PurrBehavior.java";
    py "src/main/java/me/javavirtualenv/behavior/feline/QuietMovementBehavior.java";
    py "src/main/java/me/javavirtualenv/behavior/feline/RubAffectionBehavior.java";
    py "src/main/java/me/javavirtualenv/behavior/feline/SleepOnBlocksBehavior.java";
    py "src/main/java/me/javavirtualenv/behavior/feline/SqueezeThroughGapsBehavior.java";
    py "src/main/java/me/javavirtualenv/behavior/feline/StalkBehavior.java";
    py "src/main/java/me/javavirtualenv/behavior/frog/CroakingBehavior.java";
    py "src/main/java/me/javavirtualenv/behavior/frog/FrogJumpingBehavior.java";
    py "src/main/java/me/javavirtualenv/behavior/frog/FrogSwimmingBehavior.java";
    py "src/main/java/me/javavirtualenv/behavior/sniffer/SnifferSocialBehavior.java"
].

Definition main (disk : gmap (list N) (list N)) : state := run files disk.

End Script.

Import Re Script.

(** * Definitions used by the proofs *)

(** ** Texts headed by [su]

    Every text the two patterns match and every text the two callbacks
    return starts with [su] and has no other [su] inside, and it does not
    end in [s]: each later [s] is followed by [e] ([setWeight],
    [setEnabled], [false]).  So no match can begin inside such a text or
    run from the text before it into it. *)

Definition ch_s : char := Eval cbv in chr "s".
Definition ch_u : char := Eval cbv in chr "u".
Definition ch_e : char := Eval cbv in chr "e".

(** [clean t]: each [s] of [t] is followed by an [e]. *)
Fixpoint clean (t : str) : bool :=
  match t with
  | [] => true
  | c :: t' =>
      (if c =? ch_s
       then match t' with e :: _ => e =? ch_e | [] => false end
       else true)
      && clean t'
  end.

Definition su_headed (x : str) : Prop :=
  exists t, x = ch_s :: ch_u :: t /\ clean t = true.

(** [shaped step L]: the step fires exactly on the texts [m] that [L]
    relates to their replacement [out], whatever follows them; both are
    headed by [su]. *)
Record shaped (step : str -> option (str * str)) (L : str -> str -> Prop)
  : Prop := {
  shaped_sound : forall s out rest,
    step s = Some (out, rest) -> exists m, s = m ++ rest /\ L m out;
  shaped_local : forall m out y, L m out -> step (m ++ y) = Some (out, y);
  shaped_text : forall m out, L m out -> su_headed m;
  shaped_out : forall m out, L m out -> su_headed out
}.

(** The replacements of [L] are not matched by [step]. *)
Definition inert (L : str -> str -> Prop) (step : str -> option (str * str))
  : Prop :=
  forall m out y, L m out -> step (out ++ y) = None.

(** The texts of [L] are not matched by [step]. *)
Definition apart (L : str -> str -> Prop) (step : str -> option (str * str))
  : Prop :=
  forall m out y, L m out -> step (m ++ y) = None.

(** The step that tries [stepX] first and [stepY] when it fails. *)
Definition first_of (stepX stepY : str -> option (str * str)) (s : str)
  : option (str * str) :=
  match stepX s with
  | Some x => Some x
  | None => stepY s
  end.

(** ** The language of a pattern *)

(** [iter P m g g']: [m] is a run of non-empty pieces, each in [P], that
    take the groups from [g] to [g']. *)
Inductive iter (P : str -> groups -> groups -> Prop)
  : str -> groups -> groups -> Prop :=
| iter_nil g : iter P [] g g
| iter_cons m1 m2 g g1 g2 :
    m1 <> [] -> P m1 g g1 -> iter P m2 g1 g2 -> iter P (m1 ++ m2) g g2.

(** [sem r m g g']: the pattern [r] matches exactly the text [m], taking
    the groups from [g] to [g']. *)
Fixpoint sem (r : regex) (m : str) (g g' : groups) : Prop :=
  match r with
  | Eps => m = [] /\ g' = g
  | Chr c => m = [c] /\ g' = g
  | In_ p => exists c, m = [c] /\ p c = true /\ g' = g
  | Cat r1 r2 =>
      exists m1 m2 g1, m = m1 ++ m2 /\ sem r1 m1 g g1 /\ sem r2 m2 g1 g'
  | Alt r1 r2 => sem r1 m g g' \/ sem r2 m g g'
  | Star r1 => iter (sem r1) m g g'
  | Grp i r1 => exists g1, sem r1 m g g1 /\ g' = (i, m) :: g1
  end.

(** ** The texts the two patterns match *)

(** A non-empty run of [[0-9.]]. *)
Definition is_weight (w : str) : Prop :=
  w <> [] /\ Forall (fun c => digit_or_dot c = true) w.

(** [true] or [false]. *)
Definition is_bool (b : str) : Prop := b = py "true" \/ b = py "false".

(** A run of [\s]. *)
Definition blank (ws : str) : Prop := Forall (fun c => is_space c = true) ws.

(** [super(w,ws1 b ws2);] *)
Definition text1 (w ws1 b ws2 : str) : str :=
  py "super(" ++ w ++ chr "," :: ws1 ++ b ++ ws2 ++ py ");".

(** [super(w);] *)
Definition text2 (w : str) : str := py "super(" ++ w ++ py ");".

(** The steps of the two [re.sub] calls. *)
Definition step1 : str -> option (str * str) :=
  sub_step pattern1 replace_two_params.

Definition step2 : str -> option (str * str) :=
  sub_step pattern2 replace_one_param.

(** The three statements of rule 1 and the two statements of rule 2. *)
Definition stmts3 (w b : str) : str :=
  py "super();" ++ nl :: py "        setWeight(" ++ w ++ py ");"
    ++ nl :: py "        setEnabled(" ++ b ++ py ");".

Definition stmts2 (w : str) : str :=
  py "super();" ++ nl :: py "        setWeight(" ++ w ++ py ");".

(** The texts rule 1 and rule 2 rewrite, with their replacements. *)
Definition L1 (m out : str) : Prop :=
  exists w ws1 b ws2,
    is_weight w /\ blank ws1 /\ is_bool b /\ blank ws2
    /\ m = text1 w ws1 b ws2 /\ out = stmts3 w b.

Definition L2 (m out : str) : Prop :=
  exists w, is_weight w /\ m = text2 w /\ out = stmts2 w.

(** A text without a match of either pattern. *)
Definition match_free (s : str) : Prop :=
  forall t, t `suffix_of` s -> step1 t = None /\ step2 t = None.

(** ** The run over the files, as the specification words it

    Each listed path has one outcome: skipped when the path is missing,
    fixed when the file's text changes under the transformation and is
    written back, unchanged otherwise.  A path listed again finds the
    text already transformed. *)

Inductive outcome : Type := Skipped | Fixed | Unchanged.

Definition spec_outcome (disk : gmap (list N) (list N)) (seen : list str)
    (path : str) : outcome :=
  match disk !! path with
  | None => Skipped
  | Some content =>
      if decide (transform content <> content /\ path ∉ seen)
      then Fixed else Unchanged
  end.

Fixpoint spec_outcomes (disk : gmap (list N) (list N)) (seen : list str)
    (paths : list str) : list (str * outcome) :=
  match paths with
  | [] => []
  | path :: paths' =>
      (path, spec_outcome disk seen path)
        :: spec_outcomes disk (path :: seen) paths'
  end.

Definition spec_line (row : str * outcome) : str :=
  match row.2 with
  | Skipped => py "SKIP: " ++ row.1 ++ py " not found"
  | Fixed => py "FIXED: " ++ row.1
  | Unchanged => py "NO CHANGE: " ++ row.1
  end.

Definition is_fixed (row : str * outcome) : bool :=
  match row.2 with Fixed => true | _ => false end.

Definition count_fixed (rows : list (str * outcome)) : nat :=
  length (filter (fun row => is_fixed row = true) rows).

Definition spec_lines (rows : list (str * outcome)) : str :=
  concat (map (fun row => spec_line row ++ [nl]) rows).

(** One line per path, a blank line, the total. *)
Definition spec_console (rows : list (str * outcome)) : str :=
  spec_lines rows
    ++ nl :: py "Total files fixed: " ++ str_of_nat (count_fixed rows) ++ [nl].

(** The numeric literal of the specification: digits, optionally with a
    single decimal point. *)
Definition is_digit (c : char) : bool := (chr "0" <=? c) && (c <=? chr "9").

Definition spec_numeric_literal (w : str) : bool :=
  forallb digit_or_dot w
  && (length (filter (fun c => c = chr ".") w) <=? 1)%nat
  && existsb is_digit w.

(** The writes of a run: the transformed text of each fixed file. *)
Definition spec_write (disk : gmap (list N) (list N)) (row : str * outcome)
  : list (str * str) :=
  match row.2, disk !! row.1 with
  | Fixed, Some content => [(row.1, transform content)]
  | _, _ => []
  end.

Definition spec_writes (disk : gmap (list N) (list N))
    (rows : list (str * outcome)) : list (str * str) :=
  concat (map (spec_write disk) rows).

(** The file system once the paths of [seen] have been processed. *)
Definition fs_after (disk : gmap (list N) (list N)) (seen : list str)
    (m : gmap (list N) (list N)) : Prop :=
  forall q, m !! q = if decide (q ∈ seen) then transform <$> disk !! q
                     else disk !! q.

(** ** A small file system for the examples *)

Definition sample_java : str :=
  py "class A extends B {" ++ nl :: py "    A() {" ++ nl
    :: py "        super(1.0, false);" ++ nl :: py "        super(3.25);" ++ nl
    :: py "    }" ++ nl :: py "}" ++ [nl].

Definition sample_disk : gmap (list N) (list N) :=
  <[py "A.java" := sample_java]>
    (<[py "B.java" := py "super(); super(someVariable);"]> ∅).

(** * Proofs *)

(** ** The scan of [re.sub] over an abstract step *)

Section Sub.
Variable step : str -> option (str * str).
Hypothesis step_progress : forall s out rest,
  step s = Some (out, rest) -> (length rest < length s)%nat.

Lemma sub_loop_fuel n : forall m s,
  (length s < n)%nat -> (length s < m)%nat ->
  sub_loop step n s = sub_loop step m s.
Proof.
  induction n as [|n IH]; intros m s Hn Hm; [lia|].
  destruct m as [|m]; [lia|]. simpl.
  destruct (step s) as [[out rest]|] eqn:E.
  - pose proof (step_progress _ _ _ E) as Hlt.
    apply Nat.ltb_lt in Hlt as Hb. rewrite Hb.
    f_equal. apply IH; lia.
  - destruct s as [|c s']; [reflexivity|].
    f_equal. simpl in Hn, Hm. apply IH; lia.
Qed.

Lemma sub_nil : sub step [] = [].
Proof.
  unfold sub. simpl. destruct (step []) as [[out rest]|] eqn:E; [|reflexivity].
  apply step_progress in E. simpl in E. lia.
Qed.

Lemma sub_hit s out rest :
  step s = Some (out, rest) -> sub step s = out ++ sub step rest.
Proof.
  intros E. unfold sub at 1. simpl. rewrite E.
  pose proof (step_progress _ _ _ E) as Hlt.
  apply Nat.ltb_lt in Hlt as Hb. rewrite Hb.
  f_equal. apply sub_loop_fuel; lia.
Qed.

Lemma sub_miss c s :
  step (c :: s) = None -> sub step (c :: s) = c :: sub step s.
Proof.
  intros E. unfold sub at 1. simpl sub_loop. rewrite E. reflexivity.
Qed.

(** Induction along the scan. *)
Lemma sub_scan_ind (P : str -> Prop) :
  P [] ->
  (forall c s, step (c :: s) = None -> P s -> P (c :: s)) ->
  (forall s out rest, step s = Some (out, rest) -> P rest -> P s) ->
  forall s, P s.
Proof.
  intros Hnil Hmiss Hhit s.
  remember (length s) as n eqn:Hn.
  revert s Hn. induction n as [n IH] using lt_wf_ind. intros s Hn.
  destruct (step s) as [[out rest]|] eqn:E.
  - apply (Hhit _ _ _ E). apply (IH (length rest)); [|reflexivity].
    apply step_progress in E. lia.
  - destruct s as [|c s']; [exact Hnil|].
    apply Hmiss; [exact E|]. apply (IH (length s')); [|reflexivity].
    simpl in Hn. lia.
Qed.

(** A stretch of text at no suffix of which the step fires is copied. *)
Lemma sub_app_copy u : forall x,
  (forall u1 u2, u = u1 ++ u2 -> u2 <> [] -> step (u2 ++ x) = None) ->
  sub step (u ++ x) = u ++ sub step x.
Proof.
  induction u as [|c u IH]; intros x H; [reflexivity|].
  simpl. rewrite sub_miss.
  - f_equal. apply IH. intros u1 u2 -> Hne. apply (H (c :: u1)); [reflexivity|exact Hne].
  - apply (H [] (c :: u)); [reflexivity|discriminate].
Qed.

(** Where the step fires nowhere, the text is unchanged. *)
Lemma sub_id s :
  (forall t, t `suffix_of` s -> step t = None) -> sub step s = s.
Proof.
  intros H. rewrite <- (app_nil_r s) at 1.
  rewrite sub_app_copy.
  - rewrite sub_nil. apply app_nil_r.
  - intros u1 u2 -> _. rewrite app_nil_r. apply H. exists u1. reflexivity.
Qed.

End Sub.

(** Steps that agree everywhere scan alike. *)
Lemma sub_loop_ext step step' :
  (forall s, step s = step' s) ->
  forall n s, sub_loop step n s = sub_loop step' n s.
Proof.
  intros H. induction n as [|n IH]; intros s; [reflexivity|].
  simpl. rewrite <- H. destruct (step s) as [[out rest]|].
  - rewrite IH. destruct s; [reflexivity|]. rewrite IH. reflexivity.
  - destruct s; [reflexivity|]. rewrite IH. reflexivity.
Qed.

Lemma sub_ext step step' s :
  (forall s, step s = step' s) -> sub step s = sub step' s.
Proof. intros H. apply sub_loop_ext, H. Qed.

(** ** Texts headed by [su] *)

Lemma clean_cons c t : clean (c :: t) = true -> clean t = true.
Proof. simpl. intros H. apply andb_true_iff in H. tauto. Qed.

Lemma clean_app_r a b : clean (a ++ b) = true -> clean b = true.
Proof.
  induction a as [|c a IH]; [trivial|].
  intros H. apply IH. exact (clean_cons _ _ H).
Qed.

Lemma clean_app a b : clean a = true -> clean b = true -> clean (a ++ b) = true.
Proof.
  induction a as [|c a IH]; intros Ha Hb; [exact Hb|].
  simpl in *. apply andb_true_iff in Ha as [Hc Ha].
  apply andb_true_iff. split; [|apply IH; assumption].
  destruct (c =? ch_s); [|reflexivity].
  destruct a; [discriminate|exact Hc].
Qed.

Lemma clean_no_s t :
  Forall (fun c => c <> ch_s) t -> clean t = true.
Proof.
  induction 1 as [|c t Hc _ IH]; [reflexivity|].
  simpl. apply N.eqb_neq in Hc. rewrite Hc, IH. reflexivity.
Qed.

(** A clean text does not start with [su], and is not [s] alone. *)
Lemma clean_s_e t : clean (ch_s :: t) = true -> exists t', t = ch_e :: t'.
Proof.
  simpl. intros H. apply andb_true_iff in H as [H _].
  destruct t as [|e t']; [discriminate|].
  apply N.eqb_eq in H. subst e. eauto.
Qed.

Lemma clean_not_su t x : clean t = true -> t <> [] ->
  forall y, t ++ y <> ch_s :: ch_u :: x.
Proof.
  intros Hc Hne y E. destruct t as [|c t]; [congruence|].
  simpl in E. injection E as -> E.
  apply clean_s_e in Hc as [t' ->]. simpl in E. discriminate.
Qed.

(** A clean text that runs into a following [su] ends before it. *)
Lemma clean_before_su t : forall q r x,
  clean t = true -> t ++ r = q ++ ch_s :: ch_u :: x ->
  exists q', q = t ++ q'.
Proof.
  induction t as [|c t IH]; intros q r x Hc E; [eauto|].
  destruct q as [|d q].
  - exfalso. exact (clean_not_su _ _ Hc ltac:(discriminate) _ E).
  - simpl in E. injection E as -> E.
    destruct (IH _ _ _ (clean_cons _ _ Hc) E) as [q' ->]. eauto.
Qed.

Lemma suffix_cons_case (t : str) c l :
  t `suffix_of` c :: l -> t = c :: l \/ t `suffix_of` l.
Proof.
  intros [k Hk]. destruct k as [|d k].
  - left. symmetry. exact Hk.
  - right. simpl in Hk. injection Hk as _ ->. exists k. reflexivity.
Qed.

(** ** Rules headed by [su] *)

Lemma shaped_progress step L : shaped step L ->
  forall s out rest, step s = Some (out, rest) -> (length rest < length s)%nat.
Proof.
  intros H s out rest E.
  destruct (shaped_sound _ _ H _ _ _ E) as (m & -> & HL).
  destruct (shaped_text _ _ H _ _ HL) as (t & -> & _).
  rewrite length_app. simpl. lia.
Qed.

Lemma shaped_head step L : shaped step L ->
  forall s out rest, step s = Some (out, rest) ->
  exists t, clean t = true /\ s = ch_s :: ch_u :: t ++ rest.
Proof.
  intros H s out rest E.
  destruct (shaped_sound _ _ H _ _ _ E) as (m & -> & HL).
  destruct (shaped_text _ _ H _ _ HL) as (t & -> & Hc). eauto.
Qed.

(** Inside a text headed by [su], behind its head, no step fires. *)
Lemma su_headed_inside step L : shaped step L ->
  forall u u1 u2 y, su_headed u -> u = u1 ++ u2 -> u1 <> [] -> u2 <> [] ->
  step (u2 ++ y) = None.
Proof.
  intros H u u1 u2 y (t & -> & Hc) E Hne1 Hne2.
  destruct (step (u2 ++ y)) as [[out rest]|] eqn:Es; [exfalso|reflexivity].
  destruct (shaped_head _ _ H _ _ _ Es) as (t' & _ & E').
  destruct u1 as [|a u1]; [congruence|]. simpl in E. injection E as <- E.
  destruct u1 as [|b u1].
  - simpl in E. subst u2. discriminate.
  - simpl in E. injection E as <- E. subst t.
    apply clean_app_r in Hc.
    exact (clean_not_su _ _ Hc Hne2 _ E').
Qed.

(** A text headed by [su] that the step does not match is copied. *)
Lemma sub_copy_su step L : shaped step L ->
  forall u x, su_headed u -> step (u ++ x) = None ->
  sub step (u ++ x) = u ++ sub step x.
Proof.
  intros H u x Hu E.
  apply sub_app_copy.
  intros u1 u2 Eu Hne. destruct u1 as [|a u1].
  - simpl in Eu. subst u2. exact E.
  - apply (su_headed_inside _ _ H u (a :: u1) u2); [assumption..|discriminate|assumption].
Qed.

Section Shaped.
Variables (stepA stepB : str -> option (str * str)).
Variables (LA LB : str -> str -> Prop).
Hypothesis HA : shaped stepA LA.
Hypothesis HB : shaped stepB LB.

Let progressA := shaped_progress _ _ HA.

(** A clean text at the head of the output was at the head of the
    input. *)
Lemma clean_prefix_sub t : clean t = true ->
  forall s, t `prefix_of` sub stepA s -> t `prefix_of` s.
Proof.
  intros Hc s. revert t Hc.
  induction s as [|c s Hmiss IH|s out rest Hhit IH]
    using (sub_scan_ind stepA progressA); intros t Hc [k Hk].
  - rewrite sub_nil in Hk by exact progressA.
    destruct t; [|discriminate]. exists []. reflexivity.
  - rewrite sub_miss in Hk by assumption.
    destruct t as [|d t]; [eexists; reflexivity|].
    simpl in Hk. injection Hk as <- Hk.
    destruct (IH t (clean_cons _ _ Hc) (ex_intro _ k Hk)) as [k' ->].
    exists k'. reflexivity.
  - rewrite (sub_hit _ progressA _ _ _ Hhit) in Hk.
    destruct (shaped_sound _ _ HA _ _ _ Hhit) as (m & _ & HL).
    destruct (shaped_out _ _ HA _ _ HL) as (o & -> & _).
    destruct t as [|d t]; [eexists; reflexivity|]. exfalso.
    simpl in Hk. symmetry in Hk.
    exact (clean_not_su _ _ Hc ltac:(discriminate) _ Hk).
Qed.

(** A match of [stepB] in front of the output of [stepA]'s scan was a
    match in front of its input. *)
Lemma step_before_sub c s out rest :
  stepB (c :: sub stepA s) = Some (out, rest) ->
  exists rest', stepB (c :: s) = Some (out, rest').
Proof.
  intros E.
  destruct (shaped_sound _ _ HB _ _ _ E) as (m & Em & HL).
  destruct (shaped_text _ _ HB _ _ HL) as (t & -> & Hc).
  simpl in Em. injection Em as -> Em.
  assert (Hp : (ch_u :: t) `prefix_of` sub stepA s) by (exists rest; exact Em).
  apply clean_prefix_sub in Hp as [k ->]; [|exact Hc].
  exists k. apply (shaped_local _ _ HB (ch_s :: ch_u :: t) out k HL).
Qed.

(** The scan of [stepA] creates no match of [stepB]. *)
Lemma sub_no_new_match : inert LA stepB ->
  forall s,
    (forall t, t `suffix_of` s -> stepA t = None -> stepB t = None) ->
    forall t, t `suffix_of` sub stepA s -> stepB t = None.
Proof.
  intros Hin s.
  induction s as [|c s Hmiss IH|s out rest Hhit IH]
    using (sub_scan_ind stepA progressA); intros Hs t Ht.
  - rewrite sub_nil in Ht by exact progressA.
    apply suffix_nil_inv in Ht as ->.
    apply Hs; [reflexivity|].
    destruct (stepA []) as [[o r]|] eqn:E; [|reflexivity].
    apply progressA in E. simpl in E. lia.
  - rewrite sub_miss in Ht by assumption.
    apply suffix_cons_case in Ht as [->|Ht].
    + destruct (stepB (c :: sub stepA s)) as [[o r]|] eqn:E; [|reflexivity].
      apply step_before_sub in E as [r' E].
      rewrite (Hs (c :: s)) in E; [discriminate|reflexivity|assumption].
    + apply IH; [|exact Ht].
      intros t' Ht'. apply Hs. apply suffix_cons_r, Ht'.
  - rewrite (sub_hit _ progressA _ _ _ Hhit) in Ht.
    destruct (shaped_sound _ _ HA _ _ _ Hhit) as (m & -> & HL).
    destruct Ht as [k Hk].
    assert (Hcase : (exists k', sub stepA rest = k' ++ t)
                    \/ (exists u1 u2, out = u1 ++ u2 /\ u2 <> []
                                      /\ t = u2 ++ sub stepA rest)).
    { clear -Hk. revert k Hk. induction out as [|a out IHo]; intros k Hk.
      - left. exists k. exact Hk.
      - destruct k as [|b k].
        + right. exists [], (a :: out). simpl in Hk. subst t.
          repeat split; [discriminate].
        + simpl in Hk. injection Hk as <- Hk.
          destruct (IHo _ Hk) as [?|(u1 & u2 & -> & ? & ->)]; [left; assumption|].
          right. exists (a :: u1), u2. repeat split; assumption. }
    destruct Hcase as [[k' Hk']|(u1 & u2 & -> & Hne & ->)].
    + apply IH; [|exists k'; exact Hk'].
      intros t' [j ->]. apply Hs. exists (m ++ j). rewrite <- app_assoc. reflexivity.
    + destruct u1 as [|a u1].
      * apply (Hin _ _ _ HL).
      * apply (su_headed_inside _ _ HB ((a :: u1) ++ u2) (a :: u1) u2);
          [exact (shaped_out _ _ HA _ _ HL)|reflexivity|discriminate|exact Hne].
Qed.

(** The scan splits in front of a text headed by [su]. *)
Lemma sub_split_su a : forall x,
  sub stepA (a ++ ch_s :: ch_u :: x)
  = sub stepA a ++ sub stepA (ch_s :: ch_u :: x).
Proof.
  induction a as [|c a Hmiss IH|a out rest Hhit IH]
    using (sub_scan_ind stepA progressA); intros x.
  - rewrite sub_nil by exact progressA. reflexivity.
  - destruct (stepA ((c :: a) ++ ch_s :: ch_u :: x))
      as [[o r]|] eqn:E.
    + exfalso.
      destruct (shaped_sound _ _ HA _ _ _ E) as (m & Em & HL).
      destruct (shaped_text _ _ HA _ _ HL) as (t & -> & Hc).
      simpl in Em. injection Em as -> Em.
      destruct a as [|d a].
      * simpl in Em. discriminate.
      * simpl in Em. injection Em as Ed Em. subst d. symmetry in Em.
        destruct (clean_before_su _ _ _ _ Hc Em) as [q' ->].
        pose proof (shaped_local _ _ HA (ch_s :: ch_u :: t) o q' HL) as Hl.
        simpl in Hl. congruence.
    + simpl. simpl in E. rewrite (sub_miss _ _ _ E).
      rewrite (sub_miss _ _ _ Hmiss). simpl. f_equal. apply IH.
  - destruct (shaped_sound _ _ HA _ _ _ Hhit) as (m & -> & HL).
    rewrite <- app_assoc.
    rewrite (sub_hit _ progressA _ _ _ (shaped_local _ _ HA m out _ HL)).
    rewrite (sub_hit _ progressA _ _ _ Hhit).
    rewrite <- app_assoc. f_equal. apply IH.
Qed.

End Shaped.

(** Two rules headed by [su] that match disjoint texts and do not match
    each other's replacements: either order of the two scans is the one
    scan that tries both rules at each position. *)

Section Merge.
Variables (stepX stepY : str -> option (str * str)).
Variables (LX LY : str -> str -> Prop).
Hypothesis HX : shaped stepX LX.
Hypothesis HY : shaped stepY LY.
Hypothesis apartXY : apart LX stepY.
Hypothesis inertYX : inert LY stepX.

Let progressX := shaped_progress _ _ HX.
Let progressY := shaped_progress _ _ HY.

Lemma first_of_progress s out rest :
  first_of stepX stepY s = Some (out, rest) -> (length rest < length s)%nat.
Proof.
  unfold first_of. destruct (stepX s) as [[o r]|] eqn:E.
  - intros [= <- <-]. exact (progressX _ _ _ E).
  - apply progressY.
Qed.

Lemma sub_sub_merge s :
  sub stepX (sub stepY s) = sub (first_of stepX stepY) s.
Proof.
  induction s as [|c s Hmiss IH|s out rest Hhit IH]
    using (sub_scan_ind _ first_of_progress).
  - rewrite (sub_nil _ progressY), (sub_nil _ progressX).
    rewrite (sub_nil _ first_of_progress). reflexivity.
  - rewrite (sub_miss _ _ _ Hmiss).
    unfold first_of in Hmiss.
    destruct (stepX (c :: s)) as [|] eqn:EX; [discriminate|].
    rewrite (sub_miss _ _ _ Hmiss).
    rewrite sub_miss; [rewrite IH; reflexivity|].
    destruct (stepX (c :: sub stepY s)) as [[o r]|] eqn:E; [|reflexivity].
    apply (step_before_sub stepY stepX LY LX HY HX) in E as [r' E].
    congruence.
  - rewrite (sub_hit _ first_of_progress _ _ _ Hhit).
    unfold first_of in Hhit.
    destruct (stepX s) as [[o r]|] eqn:EX.
    + injection Hhit as -> ->.
      destruct (shaped_sound _ _ HX _ _ _ EX) as (m & -> & HL).
      rewrite (sub_copy_su _ _ HY m rest (shaped_text _ _ HX _ _ HL)
                 (apartXY _ _ _ HL)).
      rewrite (sub_hit _ progressX _ _ _ (shaped_local _ _ HX m out _ HL)).
      rewrite IH. reflexivity.
    + rewrite (sub_hit _ progressY _ _ _ Hhit).
      destruct (shaped_sound _ _ HY _ _ _ Hhit) as (m & -> & HL).
      rewrite (sub_copy_su _ _ HX out _ (shaped_out _ _ HY _ _ HL)
                 (inertYX _ _ _ HL)).
      rewrite IH. reflexivity.
Qed.

End Merge.

Lemma first_of_comm stepX stepY LX :
  shaped stepX LX -> apart LX stepY ->
  forall s, first_of stepX stepY s = first_of stepY stepX s.
Proof.
  intros HX Hap s. unfold first_of.
  destruct (stepX s) as [[o r]|] eqn:EX.
  - destruct (shaped_sound _ _ HX _ _ _ EX) as (m & -> & HL).
    rewrite (Hap _ _ _ HL). reflexivity.
  - destruct (stepY s); reflexivity.
Qed.

(** ** The engine is sound for the language of a pattern *)

Lemma take_matched (m s' : str) :
  take (length (m ++ s') - length s') (m ++ s') = m.
Proof.
  rewrite length_app. replace (length m + length s' - length s')%nat
    with (length m) by lia.
  apply take_app_length.
Qed.

Lemma star_loop_sound body (P : str -> groups -> groups -> Prop) :
  (forall s g k x, body s g k = Some x ->
     exists m s' g', s = m ++ s' /\ P m g g' /\ k s' g' = Some x) ->
  forall n s g k x, star_loop body k n s g = Some x ->
    exists m s' g', s = m ++ s' /\ iter P m g g' /\ k s' g' = Some x.
Proof.
  intros Hbody. induction n as [|n IH]; intros s g k x H; simpl in H.
  - exists [], s, g. split; [reflexivity|]. split; [constructor|exact H].
  - match type of H with match ?b with _ => _ end = _ =>
      destruct b as [y|] eqn:E end.
    + injection H as ->.
      apply Hbody in E as (m1 & s1 & g1 & -> & HP & Hk).
      destruct (length s1 <? length (m1 ++ s1))%nat eqn:Hlt; [|discriminate].
      apply Nat.ltb_lt in Hlt. rewrite length_app in Hlt.
      apply IH in Hk as (m2 & s2 & g2 & -> & Hit & Hk).
      exists (m1 ++ m2), s2, g2. split; [apply app_assoc|]. split; [|exact Hk].
      econstructor; [|exact HP|exact Hit].
      intros ->. simpl in Hlt. lia.
    + exists [], s, g. split; [reflexivity|]. split; [constructor|exact H].
Qed.

(** The engine is sound for the language: a successful match consumed a
    text of the pattern and recorded its groups. *)
Lemma rmatch_sound r : forall s g k x,
  rmatch r s g k = Some x ->
  exists m s' g', s = m ++ s' /\ sem r m g g' /\ k s' g' = Some x.
Proof.
  induction r as [|c|p|r1 IH1 r2 IH2|r1 IH1 r2 IH2|r1 IH1|i r1 IH1];
    intros s g k x H; simpl in H.
  - exists [], s, g. simpl. auto.
  - destruct s as [|a s]; [discriminate|].
    destruct (N.eqb_spec a c) as [->|]; [|discriminate].
    exists [c], s, g. simpl. auto.
  - destruct s as [|a s]; [discriminate|].
    destruct (p a) eqn:Hp; [|discriminate].
    exists [a], s, g. simpl. eauto 6.
  - apply IH1 in H as (m1 & s1 & g1 & -> & H1 & H).
    apply IH2 in H as (m2 & s2 & g2 & -> & H2 & H).
    exists (m1 ++ m2), s2, g2. split; [apply app_assoc|].
    split; [|exact H]. simpl. eauto 8.
  - destruct (rmatch r1 s g k) as [y|] eqn:E.
    + injection H as ->. apply IH1 in E as (m & s' & g' & -> & Hs & Hk).
      exists m, s', g'. simpl. auto.
    + apply IH2 in H as (m & s' & g' & -> & Hs & Hk).
      exists m, s', g'. simpl. auto.
  - exact (star_loop_sound _ _ IH1 _ _ _ _ _ H).
  - apply IH1 in H as (m & s' & g' & -> & Hs & Hk).
    rewrite take_matched in Hk.
    exists m, s', ((i, m) :: g'). simpl. eauto.
Qed.

Lemma re_match_sound p s g rest :
  re_match p s = Some (g, rest) -> exists m, s = m ++ rest /\ sem p m [] g.
Proof.
  intros H. apply rmatch_sound in H as (m & s' & g' & -> & Hs & [= -> ->]).
  eauto.
Qed.

(** *** How the engine runs on the constructs of the two patterns *)

Lemma rmatch_lit l : forall s g k, rmatch (lit l) (l ++ s) g k = k s g.
Proof.
  induction l as [|c l IH]; intros s g k; [reflexivity|].
  simpl. rewrite N.eqb_refl. apply IH.
Qed.

(** A greedy run over a character set takes the whole run when what
    comes next cannot start with a character of the set. *)
Lemma star_in_greedy p k :
  (forall c s g, p c = true -> k (c :: s) g = None) ->
  forall w r g n,
    Forall (fun c => p c = true) w ->
    (forall c r', r = c :: r' -> p c = false) ->
    (length (w ++ r) <= n)%nat ->
    star_loop (rmatch (In_ p)) k n (w ++ r) g = k r g.
Proof.
  intros Hk w r g n Hw Hr. revert n.
  induction Hw as [|c w Hc Hw IH]; intros n Hn.
  - simpl. destruct n as [|n]; [reflexivity|]. simpl.
    destruct r as [|c r']; [reflexivity|].
    rewrite (Hr c r' eq_refl). reflexivity.
  - destruct n as [|n]; [simpl in Hn; lia|].
    simpl. rewrite Hc.
    assert (Hlt : (length (w ++ r) <? S (length (w ++ r)))%nat = true)
      by (apply Nat.ltb_lt; lia).
    rewrite Hlt, IH by (simpl in Hn; lia).
    destruct (k r g) eqn:E; [reflexivity|].
    apply Hk, Hc.
Qed.

Lemma rmatch_star_in p k w r g :
  (forall c s g, p c = true -> k (c :: s) g = None) ->
  Forall (fun c => p c = true) w ->
  (forall c r', r = c :: r' -> p c = false) ->
  rmatch (Star (In_ p)) (w ++ r) g k = k r g.
Proof.
  intros Hk Hw Hr. simpl. apply star_in_greedy; auto.
Qed.

Lemma rmatch_plus_in p k w r g :
  (forall c s g, p c = true -> k (c :: s) g = None) ->
  w <> [] ->
  Forall (fun c => p c = true) w ->
  (forall c r', r = c :: r' -> p c = false) ->
  rmatch (Plus (In_ p)) (w ++ r) g k = k r g.
Proof.
  intros Hk Hne Hw Hr. destruct w as [|c w]; [congruence|].
  inversion Hw as [|? ? Hc Hw']; subst.
  unfold Plus. change (rmatch (Cat ?a ?b) ?s ?g ?k)
    with (rmatch a s g (fun s' g' => rmatch b s' g' k)).
  simpl rmatch at 1. rewrite Hc. apply rmatch_star_in; auto.
Qed.

(** What the language of the constructs is. *)

Lemma sem_lit l : forall m g g', sem (lit l) m g g' -> m = l /\ g' = g.
Proof.
  induction l as [|c l IH]; intros m g g' H; simpl in H; [exact H|].
  destruct H as (m1 & m2 & g1 & -> & [-> ->] & H).
  apply IH in H as [-> ->]. auto.
Qed.

Lemma iter_in p m g g' :
  iter (sem (In_ p)) m g g' -> Forall (fun c => p c = true) m /\ g' = g.
Proof.
  induction 1 as [|m1 m2 g g1 g2 _ (c & -> & Hc & ->) _ [IH ->]]; [auto|].
  split; [|reflexivity]. constructor; assumption.
Qed.

(** ** The two patterns match exactly their texts *)

Lemma rmatch_Cat r1 r2 s g k :
  rmatch (Cat r1 r2) s g k = rmatch r1 s g (fun s' g' => rmatch r2 s' g' k).
Proof. reflexivity. Qed.

Lemma rmatch_Grp i r s g k :
  rmatch (Grp i r) s g k
  = rmatch r s g (fun s' g' => k s' ((i, take (length s - length s') s) :: g')).
Proof. reflexivity. Qed.

Lemma rmatch_Alt r1 r2 s g k :
  rmatch (Alt r1 r2) s g k
  = match rmatch r1 s g k with Some x => Some x | None => rmatch r2 s g k end.
Proof. reflexivity. Qed.

Lemma rmatch_Chr_hit c s g k : rmatch (Chr c) (c :: s) g k = k s g.
Proof. simpl. rewrite N.eqb_refl. reflexivity. Qed.

Lemma rmatch_Chr_miss c a s g k : a <> c -> rmatch (Chr c) (a :: s) g k = None.
Proof. intros H. simpl. apply N.eqb_neq in H. rewrite H. reflexivity. Qed.

Lemma rmatch_lit_miss c l a s g k :
  a <> c -> rmatch (lit (c :: l)) (a :: s) g k = None.
Proof. intros H. simpl lit. rewrite rmatch_Cat. apply rmatch_Chr_miss, H. Qed.

(** Neither character set contains a character that follows it in a
    pattern, nor [s]. *)
Lemma digit_or_dot_not c a :
  digit_or_dot c = true -> digit_or_dot a = false -> c <> a.
Proof. intros H Ha ->. congruence. Qed.

Lemma is_space_not c a : is_space c = true -> is_space a = false -> c <> a.
Proof. intros H Ha ->. congruence. Qed.

Lemma weight_clean w :
  Forall (fun c => digit_or_dot c = true) w -> clean w = true.
Proof.
  intros H. apply clean_no_s. eapply Forall_impl; [exact H|].
  intros c Hc. exact (digit_or_dot_not c ch_s Hc eq_refl).
Qed.

Lemma blank_clean ws : blank ws -> clean ws = true.
Proof.
  intros H. apply clean_no_s. eapply Forall_impl; [exact H|].
  intros c Hc. exact (is_space_not c ch_s Hc eq_refl).
Qed.

Lemma is_bool_clean b : is_bool b -> clean b = true.
Proof. intros [->| ->]; reflexivity. Qed.

Lemma match1_sound s g rest :
  re_match pattern1 s = Some (g, rest) ->
  exists w ws1 b ws2,
    is_weight w /\ blank ws1 /\ is_bool b /\ blank ws2
    /\ s = text1 w ws1 b ws2 ++ rest /\ g = [(2%nat, b); (1%nat, w)].
Proof.
  intros H. apply re_match_sound in H as (m & -> & H).
  destruct H as (m1x1 & r1 & g1 & -> & H1 & H).
  apply sem_lit in H1 as [-> ->].
  destruct H as (w & r2 & g2 & -> & Hw & H).
  destruct Hw as (g1 & (w1 & w2 & g0 & -> & (c & -> & Hc & ->) & Hw) & ->).
  apply iter_in in Hw as [Hw ->].
  destruct H as (m1x3 & r3 & g3 & -> & [-> ->] & H).
  destruct H as (ws1 & r4 & g4 & -> & Hws1 & H).
  apply iter_in in Hws1 as [Hws1 ->].
  destruct H as (b & r5 & g5 & -> & Hb & H).
  destruct Hb as (g6 & Hb & ->).
  destruct H as (ws2 & r6 & g7 & -> & Hws2 & H).
  apply iter_in in Hws2 as [Hws2 ->].
  apply sem_lit in H as [-> ->].
  exists ([c] ++ w2), ws1, b, ws2.
  split; [split; [discriminate|constructor; assumption]|].
  split; [exact Hws1|].
  assert (Hb' : is_bool b /\ g6 = [(1%nat, [c] ++ w2)]).
  { destruct Hb as [Hb|Hb]; apply sem_lit in Hb as [-> ->];
      (split; [|reflexivity]); [left|right]; reflexivity. }
  destruct Hb' as [Hb' ->].
  split; [exact Hb'|]. split; [exact Hws2|].
  split; [|reflexivity].
  unfold text1. rewrite <- !app_assoc. cbn [app]. rewrite <- ?app_assoc. reflexivity.
Qed.

Lemma match2_sound s g rest :
  re_match pattern2 s = Some (g, rest) ->
  exists w, is_weight w /\ s = text2 w ++ rest /\ g = [(1%nat, w)].
Proof.
  intros H. apply re_match_sound in H as (m & -> & H).
  destruct H as (m1x1 & r1 & g1 & -> & H1 & H).
  apply sem_lit in H1 as [-> ->].
  destruct H as (w & r2 & g2 & -> & Hw & H).
  destruct Hw as (g1 & (w1 & w2 & g0 & -> & (c & -> & Hc & ->) & Hw) & ->).
  apply iter_in in Hw as [Hw ->].
  apply sem_lit in H as [-> ->].
  exists ([c] ++ w2).
  split; [split; [discriminate|constructor; assumption]|].
  split; [|reflexivity].
  unfold text2. rewrite <- !app_assoc. cbn [app]. reflexivity.
Qed.

Lemma py_close : py ");" = [chr ")"; chr ";"].
Proof. reflexivity. Qed.

Lemma match2_complete w rest :
  is_weight w ->
  re_match pattern2 (text2 w ++ rest) = Some ([(1%nat, w)], rest).
Proof.
  intros [Hne Hw]. unfold re_match, pattern2, text2.
  rewrite <- !app_assoc. rewrite rmatch_Cat, rmatch_lit, rmatch_Cat, rmatch_Grp.
  rewrite rmatch_plus_in; try assumption.
  - rewrite take_matched, rmatch_lit. reflexivity.
  - intros c s g Hc. rewrite py_close. apply rmatch_lit_miss.
    exact (digit_or_dot_not _ (chr ")") Hc eq_refl).
  - intros c r' [= <- _]. reflexivity.
Qed.

Lemma rmatch_bool b r g k :
  is_bool b ->
  rmatch (Alt (lit (py "true")) (lit (py "false"))) (b ++ r) g k = k r g.
Proof.
  intros [->| ->]; rewrite rmatch_Alt.
  - rewrite rmatch_lit. destruct (k r g); reflexivity.
  - change (rmatch (lit (py "true")) (py "false" ++ r) g k) with (@None result).
    apply rmatch_lit.
Qed.

Lemma rmatch_bool_miss c s g k :
  c <> chr "t" -> c <> chr "f" ->
  rmatch (Alt (lit (py "true")) (lit (py "false"))) (c :: s) g k = None.
Proof.
  intros Ht Hf. rewrite rmatch_Alt.
  change (py "true") with (chr "t" :: py "rue").
  change (py "false") with (chr "f" :: py "alse").
  rewrite !rmatch_lit_miss by assumption. reflexivity.
Qed.

Lemma match1_complete w ws1 b ws2 rest :
  is_weight w -> blank ws1 -> is_bool b -> blank ws2 ->
  re_match pattern1 (text1 w ws1 b ws2 ++ rest)
  = Some ([(2%nat, b); (1%nat, w)], rest).
Proof.
  intros [Hne Hw] Hws1 Hb Hws2. unfold re_match, pattern1, text1.
  rewrite <- !app_assoc. cbn [app]. rewrite <- !app_assoc.
  rewrite rmatch_Cat, rmatch_lit, rmatch_Cat, rmatch_Grp.
  rewrite rmatch_plus_in; try assumption.
  - rewrite take_matched, rmatch_Cat, rmatch_Chr_hit, rmatch_Cat.
    rewrite rmatch_star_in; try assumption.
    + rewrite rmatch_Cat, rmatch_Grp, rmatch_bool by assumption.
      rewrite take_matched, rmatch_Cat.
      rewrite rmatch_star_in; try assumption.
      * apply rmatch_lit.
      * intros c s g Hc. rewrite py_close. apply rmatch_lit_miss.
        exact (is_space_not _ (chr ")") Hc eq_refl).
      * intros c r' [= <- _]. reflexivity.
    + intros c s g Hc. rewrite rmatch_Cat, rmatch_Grp.
      apply rmatch_bool_miss.
      * exact (is_space_not _ (chr "t") Hc eq_refl).
      * exact (is_space_not _ (chr "f") Hc eq_refl).
    + destruct Hb as [->| ->]; intros c r' [= <- _]; reflexivity.
  - intros c s g Hc. rewrite rmatch_Cat. apply rmatch_Chr_miss.
    exact (digit_or_dot_not _ (chr ",") Hc eq_refl).
  - intros c r' [= <- _]. reflexivity.
Qed.

(** ** The two rules of the script as rules headed by [su] *)

Lemma step1_sound s out rest :
  step1 s = Some (out, rest) -> exists m, s = m ++ rest /\ L1 m out.
Proof.
  unfold step1, sub_step. destruct (re_match pattern1 s) as [[g r]|] eqn:E;
    [|discriminate].
  intros [= <- <-].
  apply match1_sound in E as (w & ws1 & b & ws2 & Hw & H1 & Hb & H2 & -> & ->).
  exists (text1 w ws1 b ws2). split; [reflexivity|].
  exists w, ws1, b, ws2. auto 10.
Qed.

Lemma step1_local m out y : L1 m out -> step1 (m ++ y) = Some (out, y).
Proof.
  intros (w & ws1 & b & ws2 & Hw & H1 & Hb & H2 & -> & ->).
  unfold step1, sub_step. rewrite match1_complete by assumption. reflexivity.
Qed.

Lemma step2_sound s out rest :
  step2 s = Some (out, rest) -> exists m, s = m ++ rest /\ L2 m out.
Proof.
  unfold step2, sub_step. destruct (re_match pattern2 s) as [[g r]|] eqn:E;
    [|discriminate].
  intros [= <- <-].
  apply match2_sound in E as (w & Hw & -> & ->).
  exists (text2 w). split; [reflexivity|]. exists w. auto.
Qed.

Lemma step2_local m out y : L2 m out -> step2 (m ++ y) = Some (out, y).
Proof.
  intros (w & Hw & -> & ->).
  unfold step2, sub_step. rewrite match2_complete by assumption. reflexivity.
Qed.

Lemma text1_su w ws1 b ws2 :
  is_weight w -> blank ws1 -> is_bool b -> blank ws2 ->
  su_headed (text1 w ws1 b ws2).
Proof.
  intros [_ Hw] H1 Hb H2.
  exists (py "per(" ++ w ++ chr "," :: ws1 ++ b ++ ws2 ++ py ");").
  split; [reflexivity|].
  apply clean_app; [reflexivity|].
  apply clean_app; [apply weight_clean, Hw|].
  apply (clean_app [chr ","]); [reflexivity|].
  apply clean_app; [apply blank_clean, H1|].
  apply clean_app; [apply is_bool_clean, Hb|].
  apply clean_app; [apply blank_clean, H2|reflexivity].
Qed.

Lemma text2_su w : is_weight w -> su_headed (text2 w).
Proof.
  intros [_ Hw]. exists (py "per(" ++ w ++ py ");").
  split; [reflexivity|].
  apply clean_app; [reflexivity|].
  apply clean_app; [apply weight_clean, Hw|reflexivity].
Qed.

Lemma stmts2_su w : is_weight w -> su_headed (stmts2 w).
Proof.
  intros [_ Hw].
  exists (py "per();" ++ nl :: py "        setWeight(" ++ w ++ py ");").
  split; [reflexivity|].
  apply (clean_app (py "per();" ++ nl :: py "        setWeight("));
    [reflexivity|].
  apply clean_app; [apply weight_clean, Hw|reflexivity].
Qed.

Lemma stmts3_su w b : is_weight w -> is_bool b -> su_headed (stmts3 w b).
Proof.
  intros [_ Hw] Hb.
  exists (py "per();" ++ nl :: py "        setWeight(" ++ w ++ py ");"
            ++ nl :: py "        setEnabled(" ++ b ++ py ");").
  split; [reflexivity|].
  apply (clean_app (py "per();" ++ nl :: py "        setWeight("));
    [reflexivity|].
  apply clean_app; [apply weight_clean, Hw|].
  apply (clean_app (py ");" ++ nl :: py "        setEnabled("));
    [reflexivity|].
  apply clean_app; [apply is_bool_clean, Hb|reflexivity].
Qed.

Lemma shaped1 : shaped step1 L1.
Proof.
  split.
  - exact step1_sound.
  - exact step1_local.
  - intros m out (w & ws1 & b & ws2 & Hw & H1 & Hb & H2 & -> & ->).
    apply text1_su; assumption.
  - intros m out (w & ws1 & b & ws2 & Hw & H1 & Hb & H2 & -> & ->).
    apply stmts3_su; assumption.
Qed.

Lemma shaped2 : shaped step2 L2.
Proof.
  split.
  - exact step2_sound.
  - exact step2_local.
  - intros m out (w & Hw & -> & ->). apply text2_su, Hw.
  - intros m out (w & Hw & -> & ->). apply stmts2_su, Hw.
Qed.

(** Both patterns need a character of [[0-9.]] after [super(]; both
    replacements have [)] there. *)
Lemma bare_super_no_match1 y : re_match pattern1 (py "super()" ++ y) = None.
Proof. reflexivity. Qed.

Lemma bare_super_no_match2 y : re_match pattern2 (py "super()" ++ y) = None.
Proof. reflexivity. Qed.

Lemma inert11 : inert L1 step1.
Proof.
  intros m out y (w & ws1 & b & ws2 & _ & _ & _ & _ & _ & ->).
  unfold step1, sub_step, stmts3.
  change (py "super();") with (py "super()" ++ py ";").
  rewrite <- !app_assoc. rewrite bare_super_no_match1. reflexivity.
Qed.

Lemma inert12 : inert L1 step2.
Proof.
  intros m out y (w & ws1 & b & ws2 & _ & _ & _ & _ & _ & ->).
  unfold step2, sub_step, stmts3.
  change (py "super();") with (py "super()" ++ py ";").
  rewrite <- !app_assoc. rewrite bare_super_no_match2. reflexivity.
Qed.

Lemma inert21 : inert L2 step1.
Proof.
  intros m out y (w & _ & _ & ->).
  unfold step1, sub_step, stmts2.
  change (py "super();") with (py "super()" ++ py ";").
  rewrite <- !app_assoc. rewrite bare_super_no_match1. reflexivity.
Qed.

Lemma inert22 : inert L2 step2.
Proof.
  intros m out y (w & _ & _ & ->).
  unfold step2, sub_step, stmts2.
  change (py "super();") with (py "super()" ++ py ";").
  rewrite <- !app_assoc. rewrite bare_super_no_match2. reflexivity.
Qed.

(** A run of a character set, closed by a character outside it, is
    read off a text in one way only. *)
Lemma span_unique (p : char -> bool) : forall w w' a a' x y,
  Forall (fun c => p c = true) w -> Forall (fun c => p c = true) w' ->
  p a = false -> p a' = false ->
  w ++ a :: x = w' ++ a' :: y -> w = w' /\ a = a' /\ x = y.
Proof.
  induction w as [|c w IH]; intros w' a a' x y Hw Hw' Ha Ha' E.
  - destruct w' as [|c' w'].
    + simpl in E. injection E as -> ->. auto.
    + simpl in E. injection E as -> _. inversion Hw'; congruence.
  - destruct w' as [|c' w'].
    + simpl in E. injection E as -> _. inversion Hw; congruence.
    + simpl in E. injection E as -> E.
      inversion Hw; inversion Hw'; subst.
      destruct (IH w' a a' x y) as (-> & -> & ->); auto.
Qed.

Lemma apart12 : apart L1 step2.
Proof.
  intros m out y (w & ws1 & b & ws2 & [_ Hw] & _ & _ & _ & -> & _).
  destruct (step2 (text1 w ws1 b ws2 ++ y)) as [[o r]|] eqn:E; [|reflexivity].
  exfalso. apply step2_sound in E as (m & E & (w' & [_ Hw'] & -> & _)).
  unfold text1, text2 in E. rewrite <- !app_assoc in E.
  apply app_inv_head in E. rewrite py_close in E. cbn [app] in E.
  apply span_unique with (p := digit_or_dot) in E as (_ & E & _);
    [discriminate|auto..].
Qed.

Lemma apart21 : apart L2 step1.
Proof.
  intros m out y (w & [_ Hw] & -> & _).
  destruct (step1 (text2 w ++ y)) as [[o r]|] eqn:E; [|reflexivity].
  exfalso.
  apply step1_sound in E
    as (m & E & (w' & ws1 & b & ws2 & [_ Hw'] & _ & _ & _ & -> & _)).
  unfold text1, text2 in E. rewrite <- !app_assoc in E.
  apply app_inv_head in E. rewrite py_close in E. cbn [app] in E.
  apply span_unique with (p := digit_or_dot) in E as (_ & E & _);
    [discriminate|auto..].
Qed.

Lemma step1_progress s out rest :
  step1 s = Some (out, rest) -> (length rest < length s)%nat.
Proof. exact (shaped_progress _ _ shaped1 s out rest). Qed.

Lemma step2_progress s out rest :
  step2 s = Some (out, rest) -> (length rest < length s)%nat.
Proof. exact (shaped_progress _ _ shaped2 s out rest). Qed.

(** ** The two scans of the script *)

Lemma step_None p repl t : sub_step p repl t = None <-> re_match p t = None.
Proof.
  unfold sub_step. destruct (re_match p t) as [[g r]|]; split; congruence.
Qed.

Lemma re_search_None p s :
  re_search p s = None <-> forall t, t `suffix_of` s -> re_match p t = None.
Proof.
  induction s as [|c s IH]; simpl.
  - destruct (re_match p []) eqn:E.
    + split; [discriminate|]. intros H. rewrite <- E. apply H. reflexivity.
    + split; [|reflexivity]. intros _ t Ht.
      apply suffix_nil_inv in Ht as ->. exact E.
  - destruct (re_match p (c :: s)) eqn:E.
    + split; [discriminate|]. intros H. rewrite <- E. apply H. reflexivity.
    + rewrite IH. split.
      * intros H t Ht. apply suffix_cons_case in Ht as [->|Ht]; auto.
      * intros H t Ht. apply H, suffix_cons_r, Ht.
Qed.

Lemma match_free_search s :
  match_free s <->
  re_search pattern1 s = None /\ re_search pattern2 s = None.
Proof.
  rewrite !re_search_None. unfold match_free, step1, step2. split.
  - intros H. split; intros t Ht; destruct (H t Ht) as [E1 E2].
    + apply (step_None pattern1 replace_two_params t), E1.
    + apply (step_None pattern2 replace_one_param t), E2.
  - intros [H1 H2] t Ht. split; apply step_None; auto.
Qed.

Lemma match_free_rule1 s : match_free s -> rule1 s = s.
Proof.
  intros H. apply (sub_id _ step1_progress). intros t Ht. apply (H t Ht).
Qed.

Lemma match_free_rule2 s : match_free s -> rule2 s = s.
Proof.
  intros H. apply (sub_id _ step2_progress). intros t Ht. apply (H t Ht).
Qed.

Lemma match_free_transform s : match_free s -> transform s = s.
Proof.
  intros H. unfold transform.
  rewrite (match_free_rule1 _ H). apply match_free_rule2, H.
Qed.

(** The output of the two scans has no match of either pattern left. *)
Lemma transform_match_free content : match_free (transform content).
Proof.
  intros t Ht. unfold transform, rule1, rule2, re_sub in Ht. split.
  - revert t Ht.
    apply (sub_no_new_match step2 step1 L2 L1 shaped2 shaped1 inert21).
    intros t Ht _. revert t Ht.
    apply (sub_no_new_match step1 step1 L1 L1 shaped1 shaped1 inert11).
    auto.
  - revert t Ht.
    apply (sub_no_new_match step2 step2 L2 L2 shaped2 shaped2 inert22).
    auto.
Qed.

Lemma transform_idem content : transform (transform content) = transform content.
Proof. apply match_free_transform, transform_match_free. Qed.

(** Either order of the two scans is the scan that tries both rules. *)
Lemma rule2_rule1_merge s : rule2 (rule1 s) = sub (first_of step2 step1) s.
Proof.
  apply (sub_sub_merge step2 step1 L2 L1 shaped2 shaped1 apart21 inert12).
Qed.

Lemma rule1_rule2_merge s : rule1 (rule2 s) = sub (first_of step1 step2) s.
Proof.
  apply (sub_sub_merge step1 step2 L1 L2 shaped1 shaped2 apart12 inert21).
Qed.

Lemma rules_commute s : rule1 (rule2 s) = rule2 (rule1 s).
Proof.
  rewrite rule1_rule2_merge, rule2_rule1_merge.
  apply sub_ext. apply (first_of_comm step1 step2 L1 shaped1 apart12).
Qed.

(** A scan rewrites an occurrence of its pattern in place, and copies a
    text headed by [su] that it does not match, whatever stands around
    it. *)
Lemma sub_rewrite_in_place step L : shaped step L ->
  forall m out pre post, L m out ->
  sub step (pre ++ m ++ post) = sub step pre ++ out ++ sub step post.
Proof.
  intros H m out pre post HL.
  destruct (shaped_text _ _ H _ _ HL) as (t & E & _).
  pose proof (sub_split_su step L H pre (t ++ post)) as Hs.
  rewrite E. simpl. rewrite Hs. f_equal.
  change (ch_s :: ch_u :: t ++ post) with ((ch_s :: ch_u :: t) ++ post).
  rewrite <- E.
  apply (sub_hit _ (shaped_progress _ _ H)), (shaped_local _ _ H), HL.
Qed.

Lemma sub_copy_in_place step L : shaped step L ->
  forall u pre post, su_headed u -> step (u ++ post) = None ->
  sub step (pre ++ u ++ post) = sub step pre ++ u ++ sub step post.
Proof.
  intros H u pre post Hu E.
  destruct Hu as (t & Et & Hc).
  pose proof (sub_split_su step L H pre (t ++ post)) as Hs.
  rewrite Et. simpl. rewrite Hs. f_equal.
  change (ch_s :: ch_u :: t ++ post) with ((ch_s :: ch_u :: t) ++ post).
  change (ch_s :: ch_u :: t ++ sub step post)
    with ((ch_s :: ch_u :: t) ++ sub step post).
  rewrite <- Et in *.
  apply (sub_copy_su _ _ H); [exists t; auto|exact E].
Qed.

Lemma transform_text1 m out pre post : L1 m out ->
  transform (pre ++ m ++ post) = transform pre ++ out ++ transform post.
Proof.
  intros HL. unfold transform, rule1, rule2, re_sub.
  fold step1 step2.
  rewrite (sub_rewrite_in_place _ _ shaped1 _ _ _ _ HL).
  apply (sub_copy_in_place _ _ shaped2).
  - exact (shaped_out _ _ shaped1 _ _ HL).
  - apply (inert12 _ _ _ HL).
Qed.

Lemma transform_text2 m out pre post : L2 m out ->
  transform (pre ++ m ++ post) = transform pre ++ out ++ transform post.
Proof.
  intros HL. unfold transform, rule1, rule2, re_sub.
  fold step1 step2.
  rewrite (sub_copy_in_place _ _ shaped1 m pre post
             (shaped_text _ _ shaped2 _ _ HL) (apart21 _ _ _ HL)).
  apply (sub_rewrite_in_place _ _ shaped2), HL.
Qed.

Lemma Forall_forallb (p : char -> bool) l :
  forallb p l = true -> Forall (fun c => p c = true) l.
Proof.
  induction l as [|c l IH]; simpl; intros H; [constructor|].
  apply andb_true_iff in H as [Hc Hl]. constructor; auto.
Qed.

Lemma transform_copy u pre post :
  su_headed u ->
  (forall y, step1 (u ++ y) = None) -> (forall y, step2 (u ++ y) = None) ->
  transform (pre ++ u ++ post) = transform pre ++ u ++ transform post.
Proof.
  intros Hu H1 H2. unfold transform, rule1, rule2, re_sub. fold step1 step2.
  rewrite (sub_copy_in_place _ _ shaped1 u pre post Hu (H1 _)).
  apply (sub_copy_in_place _ _ shaped2 u _ _ Hu (H2 _)).
Qed.

(** The two character sets are disjoint. *)
Lemma is_space_not_digit c : is_space c = true -> digit_or_dot c = false.
Proof.
  intros Hc. destruct (digit_or_dot c) eqn:Hd; [exfalso|reflexivity].
  unfold digit_or_dot in Hd.
  change (chr "0") with 48 in Hd. change (chr "9") with 57 in Hd.
  change (chr ".") with 46 in Hd.
  assert (H : c = 46 \/ c = 48 \/ c = 49 \/ c = 50 \/ c = 51 \/ c = 52
              \/ c = 53 \/ c = 54 \/ c = 55 \/ c = 56 \/ c = 57).
  { apply orb_true_iff in Hd as [Hd|Hd].
    - apply andb_true_iff in Hd as [H1 H2].
      apply N.leb_le in H1, H2. lia.
    - apply N.eqb_eq in Hd. lia. }
  repeat (destruct H as [->|H]; [discriminate|]). subst c. discriminate.
Qed.

(** [super(w ws);] with blanks before the parenthesis is matched by
    neither pattern. *)
Lemma blank_before_paren_no_match w ws y :
  is_weight w -> blank ws -> ws <> [] ->
  step1 (py "super(" ++ w ++ ws ++ py ");" ++ y) = None
  /\ step2 (py "super(" ++ w ++ ws ++ py ");" ++ y) = None.
Proof.
  intros [_ Hw] Hws Hne.
  destruct ws as [|c ws]; [congruence|]. inversion Hws as [|? ? Hc _]; subst.
  pose proof (is_space_not_digit c Hc) as Hd.
  split.
  - destruct (step1 _) as [[o r]|] eqn:E; [|reflexivity]. exfalso.
    apply step1_sound in E
      as (m & E & (w' & ws1 & b & ws2 & [_ Hw'] & _ & _ & _ & -> & _)).
    unfold text1 in E. rewrite <- !app_assoc in E.
    apply app_inv_head in E. cbn [app] in E.
    apply span_unique with (p := digit_or_dot) in E as (_ & E & _); auto.
    subst c. discriminate.
  - destruct (step2 _) as [[o r]|] eqn:E; [|reflexivity]. exfalso.
    apply step2_sound in E as (m & E & (w' & [_ Hw'] & -> & _)).
    unfold text2 in E. rewrite <- !app_assoc in E.
    apply app_inv_head in E. rewrite py_close in E. cbn [app] in E.
    apply span_unique with (p := digit_or_dot) in E as (_ & E & _); auto.
    subst c. discriminate.
Qed.

Lemma transform_nil : transform [] = [].
Proof. reflexivity. Qed.

(** ** The properties of the text transformation *)

(** C1 (two-argument precedence).  Wherever [super(2.5, true);] occurs
    in a file content, rule 1, and so the whole transformation, puts in
    its place exactly the three statements [super();], [setWeight(2.5);]
    and [setEnabled(true);], in this order, between the transformed text
    before and the transformed text after the occurrence; the
    one-argument pattern matches nowhere in the occurrence nor in the
    three statements, so rule 2 rewrites no part of them. *)
Theorem two_argument_precedence (pre post : str) :
  rule1 (pre ++ py "super(2.5, true);" ++ post)
  = rule1 pre
      ++ (py "super();" ++ nl :: py "        setWeight(2.5);"
            ++ nl :: py "        setEnabled(true);")
      ++ rule1 post
  /\ transform (pre ++ py "super(2.5, true);" ++ post)
     = transform pre
         ++ (py "super();" ++ nl :: py "        setWeight(2.5);"
               ++ nl :: py "        setEnabled(true);")
         ++ transform post
  /\ re_search pattern2 (py "super(2.5, true);") = None
  /\ re_search pattern2
       (py "super();" ++ nl :: py "        setWeight(2.5);"
          ++ nl :: py "        setEnabled(true);") = None.
Proof.
  assert (HL : L1 (py "super(2.5, true);")
                  (py "super();" ++ nl :: py "        setWeight(2.5);"
                     ++ nl :: py "        setEnabled(true);")).
  { exists (py "2.5"), (py " "), (py "true"), [].
    split; [split; [discriminate|apply Forall_forallb; reflexivity]|].
    split; [apply Forall_forallb; reflexivity|].
    split; [left; reflexivity|]. split; [constructor|].
    split; reflexivity. }
  split; [exact (sub_rewrite_in_place _ _ shaped1 _ _ pre post HL)|].
  split; [exact (transform_text1 _ _ pre post HL)|].
  split; reflexivity.
Qed.

(** C2 (one-argument coverage).  Wherever [super(0.75);] occurs in a
    file content, the transformation puts in its place exactly the two
    statements [super();] and [setWeight(0.75);], between the transformed
    text before and the transformed text after the occurrence. *)
Theorem one_argument_coverage (pre post : str) :
  transform (pre ++ py "super(0.75);" ++ post)
  = transform pre
      ++ (py "super();" ++ nl :: py "        setWeight(0.75);")
      ++ transform post.
Proof.
  apply transform_text2. exists (py "0.75").
  split; [split; [discriminate|apply Forall_forallb; reflexivity]|].
  split; reflexivity.
Qed.

(** C3 (idempotence).  For every file content, transforming twice gives
    what transforming once gives: the transformed text has no match of
    either pattern left. *)
Theorem transform_idempotent (content : str) :
  transform (transform content) = transform content
  /\ re_search pattern1 (transform content) = None
  /\ re_search pattern2 (transform content) = None.
Proof.
  split; [apply transform_idem|].
  apply match_free_search, transform_match_free.
Qed.

(** C5 (non-match preservation).  A file content in which neither
    pattern matches anywhere is left unchanged, character for
    character, by each rule and by the transformation. *)
Theorem nonmatch_preserved (content : str) :
  re_search pattern1 content = None ->
  re_search pattern2 content = None ->
  rule1 content = content /\ rule2 content = content
  /\ transform content = content.
Proof.
  intros H1 H2.
  assert (H : match_free content) by (apply match_free_search; auto).
  split; [apply match_free_rule1, H|].
  split; [apply match_free_rule2, H|apply match_free_transform, H].
Qed.

Lemma nonmatch_preserved_witness :
  re_search pattern1
    (py "super(someVariable); super(); foo.call(1.5); this.super(x, true);")
  = None
  /\ re_search pattern2
       (py "super(someVariable); super(); foo.call(1.5); this.super(x, true);")
     = None
  /\ transform
       (py "super(someVariable); super(); foo.call(1.5); this.super(x, true);")
     = py "super(someVariable); super(); foo.call(1.5); this.super(x, true);".
Proof.
  split; [reflexivity|]. split; [reflexivity|].
  apply (nonmatch_preserved
           (py "super(someVariable); super(); foo.call(1.5); this.super(x, true);"));
    reflexivity.
Defined.

(** C6 (rule order).  Running the one-argument rule first and the
    two-argument rule second gives, for every file content, the text the
    implemented order gives. *)
Theorem rule_order_irrelevant (content : str) :
  rule1 (rule2 content) = transform content.
Proof. apply rules_commute. Qed.

(** C10 (whitespace at the pattern boundaries).  The two-argument rule
    accepts any run of whitespace after the comma and before the closing
    parenthesis, and the occurrence is rewritten to the three
    statements; with whitespace between the number and the closing
    parenthesis the one-argument form is matched by neither rule and
    stays as it is, in any context and under any number of passes. *)
Theorem whitespace_asymmetry (ws1 ws2 ws pre post : str) :
  blank ws1 -> blank ws2 -> blank ws -> ws <> [] ->
  transform (pre ++ (py "super(2.5," ++ ws1 ++ py "true" ++ ws2 ++ py ");")
                 ++ post)
  = transform pre
      ++ (py "super();" ++ nl :: py "        setWeight(2.5);"
            ++ nl :: py "        setEnabled(true);")
      ++ transform post
  /\ transform (pre ++ (py "super(0.75" ++ ws ++ py ");") ++ post)
     = transform pre ++ (py "super(0.75" ++ ws ++ py ");") ++ transform post
  /\ forall n : nat,
       Nat.iter n transform (py "super(0.75" ++ ws ++ py ");")
       = py "super(0.75" ++ ws ++ py ");".
Proof.
  intros H1 H2 Hws Hne.
  assert (Hw : is_weight (py "0.75"))
    by (split; [discriminate|apply Forall_forallb; reflexivity]).
  assert (Hcopy : forall pre post,
    transform (pre ++ (py "super(0.75" ++ ws ++ py ");") ++ post)
    = transform pre ++ (py "super(0.75" ++ ws ++ py ");") ++ transform post).
  { intros a b. apply transform_copy.
    - exists (py "per(0.75" ++ ws ++ py ");"). split; [reflexivity|].
      apply clean_app; [reflexivity|].
      apply clean_app; [apply blank_clean, Hws|reflexivity].
    - intros y.
      destruct (blank_before_paren_no_match (py "0.75") ws y Hw Hws Hne)
        as [E _].
      rewrite <- !app_assoc. exact E.
    - intros y.
      destruct (blank_before_paren_no_match (py "0.75") ws y Hw Hws Hne)
        as [_ E].
      rewrite <- !app_assoc. exact E. }
  split; [|split; [apply Hcopy|]].
  - apply transform_text1.
    exists (py "2.5"), ws1, (py "true"), ws2.
    split; [split; [discriminate|apply Forall_forallb; reflexivity]|].
    split; [exact H1|]. split; [left; reflexivity|]. split; [exact H2|].
    split; reflexivity.
  - intros n. induction n as [|n IH]; [reflexivity|].
    rewrite Nat.iter_succ, IH.
    pose proof (Hcopy [] []) as E. rewrite app_nil_r in E.
    simpl in E. rewrite transform_nil, app_nil_r in E. exact E.
Qed.

Lemma whitespace_asymmetry_witness :
  blank (py " ")
  /\ transform (py "super(2.5, true );")
  = py "super();" ++ nl :: py "        setWeight(2.5);"
      ++ nl :: py "        setEnabled(true);"
  /\ transform (py "super(0.75 );") = py "super(0.75 );"
  /\ forall n : nat,
       Nat.iter n transform (py "super(0.75 );") = py "super(0.75 );".
Proof.
  split; [apply Forall_forallb; reflexivity|].
  apply (whitespace_asymmetry (py " ") (py " ") (py " ") [] []).
  - apply Forall_forallb. reflexivity.
  - apply Forall_forallb. reflexivity.
  - apply Forall_forallb. reflexivity.
  - discriminate.
Defined.

(** ** The run over the files *)

Lemma fs_after_init disk : fs_after disk [] (fs (init disk)).
Proof. intros q. simpl. destruct (decide (q ∈ [])) as [H|]; [|reflexivity].
  apply elem_of_nil in H. contradiction. Qed.

Lemma process_file_spec disk seen p st :
  fs_after disk seen (fs st) ->
  stdout (process_file p st)
  = stdout st ++ spec_line (p, spec_outcome disk seen p) ++ [nl]
  /\ fixed_count (process_file p st)
     = (fixed_count st + count_fixed [(p, spec_outcome disk seen p)])%nat
  /\ writes (process_file p st)
     = writes st ++ spec_write disk (p, spec_outcome disk seen p)
  /\ fs_after disk (p :: seen) (fs (process_file p st)).
Proof.
  intros Hfs. unfold process_file, spec_outcome, spec_write.
  pose proof (Hfs p) as Hp.
  destruct (disk !! p) as [c|] eqn:Ed; simpl in Hp.
  - destruct (decide (p ∈ seen)) as [Hin|Hnin]; rewrite Hp.
    + (* listed before: the text is already transformed *)
      rewrite decide_False by (rewrite transform_idem; tauto).
      rewrite decide_False by tauto.
      simpl. rewrite Nat.add_0_r, app_nil_r. repeat split.
      intros q. rewrite Hfs.
      destruct (decide (q ∈ seen)) as [Hq|Hq];
        destruct (decide (q ∈ p :: seen)) as [Hq'|Hq']; try reflexivity.
      * exfalso. apply Hq'. right. exact Hq.
      * apply elem_of_cons in Hq' as [->|Hq']; contradiction.
    + destruct (decide (transform c <> c)) as [Hne|Heq].
      * rewrite decide_True by tauto. unfold count_fixed. simpl. rewrite Ed.
        repeat split; [lia|].
        intros q. destruct (decide (q = p)) as [->|Hqp].
        -- rewrite lookup_insert_eq, decide_True by left. rewrite Ed. reflexivity.
        -- rewrite lookup_insert_ne by congruence. rewrite Hfs.
           destruct (decide (q ∈ seen)) as [Hq|Hq];
             destruct (decide (q ∈ p :: seen)) as [Hq'|Hq']; try reflexivity.
           ++ exfalso. apply Hq'. right. exact Hq.
           ++ apply elem_of_cons in Hq' as [->|Hq']; contradiction.
      * rewrite decide_False by tauto.
        simpl. rewrite Nat.add_0_r, app_nil_r. repeat split.
        intros q. destruct (decide (q = p)) as [->|Hqp].
        -- rewrite Hp, decide_True by left. rewrite Ed. simpl.
           apply dec_stable in Heq. rewrite Heq. reflexivity.
        -- rewrite Hfs.
           destruct (decide (q ∈ seen)) as [Hq|Hq];
             destruct (decide (q ∈ p :: seen)) as [Hq'|Hq']; try reflexivity.
           ++ exfalso. apply Hq'. right. exact Hq.
           ++ apply elem_of_cons in Hq' as [->|Hq']; contradiction.
  - assert (Hp' : fs st !! p = None) by (destruct (decide (p ∈ seen)); exact Hp).
    rewrite Hp'. simpl. rewrite Nat.add_0_r, app_nil_r. repeat split.
    intros q. rewrite Hfs.
    destruct (decide (q ∈ seen)) as [Hq|Hq];
      destruct (decide (q ∈ p :: seen)) as [Hq'|Hq']; try reflexivity.
    + exfalso. apply Hq'. right. exact Hq.
    + apply elem_of_cons in Hq' as [->|Hq']; [|contradiction].
      rewrite Ed. reflexivity.
Qed.

Lemma count_fixed_cons row rows :
  count_fixed (row :: rows) = (count_fixed [row] + count_fixed rows)%nat.
Proof.
  unfold count_fixed. rewrite !filter_cons.
  destruct (decide (is_fixed row = true)); reflexivity.
Qed.

Lemma loop_app a b st : loop (a ++ b) st = loop b (loop a st).
Proof. revert st. induction a as [|p a IH]; intros st; [reflexivity|]. apply IH. Qed.

Lemma loop_spec disk : forall paths seen st,
  fs_after disk seen (fs st) ->
  stdout (loop paths st)
  = stdout st ++ spec_lines (spec_outcomes disk seen paths)
  /\ fixed_count (loop paths st)
     = (fixed_count st + count_fixed (spec_outcomes disk seen paths))%nat
  /\ writes (loop paths st)
     = writes st ++ spec_writes disk (spec_outcomes disk seen paths)
  /\ fs_after disk (rev paths ++ seen) (fs (loop paths st)).
Proof.
  induction paths as [|p paths IH]; intros seen st Hfs.
  - simpl. unfold spec_lines, spec_writes, count_fixed. simpl.
    rewrite !app_nil_r, Nat.add_0_r. auto.
  - destruct (process_file_spec disk seen p st Hfs) as (Ho & Hc & Hw & Hfs').
    destruct (IH (p :: seen) _ Hfs') as (Ho' & Hc' & Hw' & Hfs'').
    simpl loop. simpl spec_outcomes.
    rewrite Ho', Hc', Hw', Ho, Hc, Hw.
    rewrite (count_fixed_cons _ (spec_outcomes disk (p :: seen) paths)).
    unfold spec_lines, spec_writes. simpl map. simpl concat.
    rewrite <- !app_assoc.
    repeat split; [lia|].
    simpl rev. rewrite <- app_assoc. exact Hfs''.
Qed.

Lemma run_spec disk paths :
  stdout (run paths disk) = spec_console (spec_outcomes disk [] paths)
  /\ fixed_count (run paths disk) = count_fixed (spec_outcomes disk [] paths)
  /\ writes (run paths disk) = spec_writes disk (spec_outcomes disk [] paths)
  /\ fs_after disk (rev paths) (fs (run paths disk)).
Proof.
  destruct (loop_spec disk paths [] (init disk) (fs_after_init disk))
    as (Ho & Hc & Hw & Hfs).
  unfold run, spec_console. simpl. rewrite Ho, Hc, Hw. simpl.
  rewrite app_nil_r in Hfs. auto.
Qed.

Lemma spec_outcomes_paths disk : forall paths seen,
  map fst (spec_outcomes disk seen paths) = paths.
Proof.
  induction paths as [|p paths IH]; intros seen; [reflexivity|].
  simpl. rewrite IH. reflexivity.
Qed.

Lemma spec_writes_length disk : forall paths seen,
  length (spec_writes disk (spec_outcomes disk seen paths))
  = count_fixed (spec_outcomes disk seen paths).
Proof.
  induction paths as [|p paths IH]; intros seen; [reflexivity|].
  simpl spec_outcomes. rewrite count_fixed_cons.
  unfold spec_writes in *. simpl map. simpl concat.
  rewrite length_app, IH. f_equal.
  unfold spec_write, spec_outcome, count_fixed. simpl.
  destruct (disk !! p) as [c|]; [|reflexivity].
  destruct (decide (transform c <> c /\ p ∉ seen)); reflexivity.
Qed.

(** Which writes a run makes: one for each listed, existing path whose
    text the transformation changes, with the whole transformed text. *)
Lemma spec_writes_elem disk q x : forall paths seen,
  (q, x) ∈ spec_writes disk (spec_outcomes disk seen paths) <->
  q ∈ paths /\ (q ∉ seen)
  /\ exists c, disk !! q = Some c /\ transform c <> c /\ x = transform c.
Proof.
  induction paths as [|p paths IH]; intros seen.
  - unfold spec_writes. simpl. split.
    + intros H. apply elem_of_nil in H. contradiction.
    + intros [H _]. apply elem_of_nil in H. contradiction.
  - simpl spec_outcomes. unfold spec_writes in *. simpl map. simpl concat.
    rewrite elem_of_app, IH. clear IH.
    unfold spec_write, spec_outcome. simpl.
    split.
    + intros [H|(Hin & Hns & c & Hc & Hne & ->)].
      * destruct (disk !! p) as [c|] eqn:Ed;
          [|apply elem_of_nil in H; contradiction].
        destruct (decide (transform c <> c /\ p ∉ seen)) as [[Hne Hns]|];
          [|apply elem_of_nil in H; contradiction].
        simpl in H.
        apply list_elem_of_singleton in H as [= -> ->].
        split; [left|]. eauto.
      * split; [right; exact Hin|].
        split; [intros H; apply Hns; right; exact H|]. eauto.
    + intros (Hin & Hns & c & Hc & Hne & ->).
      destruct (decide (q = p)) as [->|Hqp].
      * left. rewrite Hc. rewrite decide_True by tauto.
        simpl. apply list_elem_of_singleton. reflexivity.
      * right. apply elem_of_cons in Hin as [->|Hin]; [contradiction|].
        split; [exact Hin|]. split; [|eauto].
        intros H. apply elem_of_cons in H as [->|H]; contradiction.
Qed.

Lemma spec_writes_nodup disk : forall paths seen,
  NoDup (map fst (spec_writes disk (spec_outcomes disk seen paths))).
Proof.
  induction paths as [|p paths IH]; intros seen; [constructor|].
  simpl spec_outcomes. unfold spec_writes in *. simpl map at 2. simpl concat.
  rewrite map_app. apply NoDup_app. split; [|split; [|apply IH]].
  - unfold spec_write. simpl.
    destruct (spec_outcome disk seen p), (disk !! p); simpl;
      first [constructor; [apply not_elem_of_nil|constructor]|constructor].
  - intros q Hq Hq'.
    apply list_elem_of_fmap in Hq' as ([q' x] & -> & Hx).
    apply (spec_writes_elem disk q' x paths (p :: seen)) in Hx as (_ & Hns & _).
    unfold spec_write in Hq. simpl in Hq.
    destruct (spec_outcome disk seen p), (disk !! p); simpl in Hq;
      try (apply elem_of_nil in Hq; contradiction).
    apply list_elem_of_singleton in Hq. simpl in Hq. subst q'.
    apply Hns. left.
Qed.

Lemma run_writes_elem paths disk q x :
  (q, x) ∈ writes (run paths disk) <->
  q ∈ paths
  /\ exists c, disk !! q = Some c /\ transform c <> c /\ x = transform c.
Proof.
  destruct (run_spec disk paths) as (_ & _ & -> & _).
  rewrite spec_writes_elem. split.
  - intros (H & _ & H'). auto.
  - intros (H & H'). split; [exact H|]. split; [apply not_elem_of_nil|exact H'].
Qed.

Lemma run_lookup paths disk q :
  fs (run paths disk) !! q
  = if decide (q ∈ paths) then transform <$> disk !! q else disk !! q.
Proof.
  destruct (run_spec disk paths) as (_ & _ & _ & H).
  assert (Hrev : q ∈ rev paths <-> q ∈ paths)
    by (rewrite !list_elem_of_In; symmetry; apply in_rev).
  rewrite H. destruct (decide (q ∈ rev paths)) as [Hq|Hq];
    destruct (decide (q ∈ paths)) as [Hq'|Hq']; try reflexivity;
    exfalso; tauto.
Qed.

(** ** The weight grammar, and the properties of the run over the files *)

(** C4, as amended (weight grammar).  The weight either pattern captures
    is a non-empty run of the characters [0] to [9] and [.], with any
    number of dots: no sign, no exponent letter, no [+]; it stands right
    after [super(] in the matched text. *)
Theorem weight_grammar (s : str) (g : groups) (rest : str) :
  re_match pattern1 s = Some (g, rest) \/ re_match pattern2 s = Some (g, rest) ->
  exists w,
    group g 1 = Some w /\ w <> []
    /\ Forall (fun c => (chr "0" <= c <= chr "9") \/ c = chr ".") w
    /\ (py "super(" ++ w) `prefix_of` s.
Proof.
  assert (Hg : forall w, is_weight w ->
            w <> [] /\ Forall (fun c => (chr "0" <= c <= chr "9") \/ c = chr ".") w).
  { intros w [Hne Hw]. split; [exact Hne|].
    eapply Forall_impl; [exact Hw|]. intros c Hc. simpl in Hc.
    unfold digit_or_dot in Hc. apply orb_true_iff in Hc as [Hc|Hc].
    - left. apply andb_true_iff in Hc as [H1 H2].
      apply N.leb_le in H1, H2. auto.
    - right. apply N.eqb_eq in Hc. exact Hc. }
  intros [H|H].
  - apply match1_sound in H as (w & ws1 & b & ws2 & Hw & _ & _ & _ & -> & ->).
    exists w. destruct (Hg w Hw) as [Hne HF]. repeat split; auto.
    unfold text1. exists (chr "," :: ws1 ++ b ++ ws2 ++ py ");" ++ rest).
    rewrite <- !app_assoc. cbn [app]. rewrite <- !app_assoc. reflexivity.
  - apply match2_sound in H as (w & Hw & -> & ->).
    exists w. destruct (Hg w Hw) as [Hne HF]. repeat split; auto.
    unfold text2. exists (py ");" ++ rest).
    rewrite <- !app_assoc. reflexivity.
Qed.

Lemma weight_grammar_witness :
  re_match pattern2 (py "super(1.2.3);") = Some ([(1%nat, py "1.2.3")], [])
  /\ exists w,
       group [(1%nat, py "1.2.3")] 1 = Some w /\ w <> []
       /\ Forall (fun c => (chr "0" <= c <= chr "9") \/ c = chr ".") w
       /\ (py "super(" ++ w) `prefix_of` py "super(1.2.3);".
Proof.
  split; [reflexivity|].
  apply (weight_grammar (py "super(1.2.3);") [(1%nat, py "1.2.3")] []).
  right. reflexivity.
Defined.

(** C4, as the specification words it, fails: weights with two dots and
    weights made of dots only are matched and rewritten. *)
Lemma weight_grammar_counterexample :
  re_match pattern2 (py "super(1.2.3);") = Some ([(1%nat, py "1.2.3")], [])
  /\ spec_numeric_literal (py "1.2.3") = false
  /\ transform (py "super(1.2.3);")
     = py "super();" ++ nl :: py "        setWeight(1.2.3);"
  /\ re_match pattern1 (py "super(..,true);")
     = Some ([(2%nat, py "true"); (1%nat, py "..")], [])
  /\ spec_numeric_literal (py "..") = false
  /\ transform (py "super(..,true);")
     = py "super();" ++ nl :: py "        setWeight(..);"
         ++ nl :: py "        setEnabled(true);".
Proof. repeat split; reflexivity. Qed.

Lemma loop_lookup_missing disk paths p :
  disk !! p = None -> fs (loop paths (init disk)) !! p = None.
Proof.
  intros Hp.
  destruct (loop_spec disk paths [] (init disk) (fs_after_init disk))
    as (_ & _ & _ & H).
  rewrite H, Hp. destruct (decide (p ∈ rev paths ++ [])); reflexivity.
Qed.

(** C7 (missing file).  A listed path that does not exist gets the line
    [SKIP: <path> not found] and changes nothing else; the loop goes on
    with the paths after it, every listed path is reported, and the
    total is the number of writes, one for each distinct listed path
    that exists and whose text the transformation changes: a missing or
    an unchanged file is never counted. *)
Theorem missing_file_skipped (disk : gmap (list N) (list N))
    (pre : list str) (p : str) (post : list str) :
  disk !! p = None ->
  process_file p (loop pre (init disk))
  = print (py "SKIP: " ++ p ++ py " not found") (loop pre (init disk))
  /\ loop (pre ++ p :: post) (init disk)
     = loop post (print (py "SKIP: " ++ p ++ py " not found")
                    (loop pre (init disk)))
  /\ stdout (run (pre ++ p :: post) disk)
     = spec_console (spec_outcomes disk [] (pre ++ p :: post))
  /\ map fst (spec_outcomes disk [] (pre ++ p :: post)) = pre ++ p :: post
  /\ fixed_count (run (pre ++ p :: post) disk)
     = length (writes (run (pre ++ p :: post) disk))
  /\ NoDup (map fst (writes (run (pre ++ p :: post) disk)))
  /\ forall q,
       q ∈ map fst (writes (run (pre ++ p :: post) disk)) <->
       q ∈ pre ++ p :: post
       /\ exists c, disk !! q = Some c /\ transform c <> c.
Proof.
  intros Hp.
  assert (Hskip : process_file p (loop pre (init disk))
                  = print (py "SKIP: " ++ p ++ py " not found")
                      (loop pre (init disk))).
  { unfold process_file. rewrite (loop_lookup_missing disk pre p Hp).
    reflexivity. }
  split; [exact Hskip|].
  split; [rewrite loop_app; simpl; rewrite Hskip; reflexivity|].
  destruct (run_spec disk (pre ++ p :: post)) as (Ho & Hc & Hw & _).
  split; [exact Ho|]. split; [apply spec_outcomes_paths|].
  split; [rewrite Hc, Hw, spec_writes_length; reflexivity|].
  split; [rewrite Hw; apply spec_writes_nodup|].
  intros q. rewrite list_elem_of_fmap. split.
  - intros ([q' x] & -> & H). apply run_writes_elem in H as (Hin & c & Hc' & Hne & _).
    eauto.
  - intros (Hin & c & Hc' & Hne). exists (q, transform c).
    split; [reflexivity|]. apply run_writes_elem. eauto 6.
Qed.

(** C8 (write-back).  A run writes the text [x] to the path [p] exactly
    when [p] is listed, exists, and its transformed text differs from
    its text, and then [x] is the whole transformed text; a file whose
    text matches neither pattern is never written and keeps its text;
    within the loop body, an unchanged file leaves the state as it was
    but for the printed line, and a changed file is replaced by its
    transformed text at the same path. *)
Theorem write_iff_changed (paths : list str) (disk : gmap (list N) (list N))
    (p : str) :
  (forall x,
     (p, x) ∈ writes (run paths disk) <->
     p ∈ paths
     /\ exists c, disk !! p = Some c /\ transform c <> c /\ x = transform c)
  /\ (forall c,
        disk !! p = Some c ->
        re_search pattern1 c = None -> re_search pattern2 c = None ->
        (forall x, (p, x) ∉ writes (run paths disk))
        /\ fs (run paths disk) !! p = Some c)
  /\ (forall st c,
        fs st !! p = Some c ->
        if decide (transform c = c)
        then process_file p st = print (py "NO CHANGE: " ++ p) st
        else fs (process_file p st) = <[p := transform c]> (fs st)
             /\ writes (process_file p st) = writes st ++ [(p, transform c)]).
Proof.
  split; [intros x; apply run_writes_elem|]. split.
  - intros c Hc H1 H2.
    assert (Hid : transform c = c)
      by (apply match_free_transform, match_free_search; auto).
    split.
    + intros x Hx. apply run_writes_elem in Hx as (_ & c' & Hc' & Hne & _).
      congruence.
    + rewrite run_lookup, Hc. simpl. rewrite Hid.
      destruct (decide (p ∈ paths)); reflexivity.
  - intros st c Hc. unfold process_file. rewrite Hc.
    destruct (decide (transform c = c)) as [Heq|Hne].
    + rewrite decide_False by tauto. reflexivity.
    + rewrite decide_True by exact Hne. simpl. auto.
Qed.

(** C9 (console output).  The run prints one line per listed path, in
    list order: [SKIP: <path> not found] for a missing path,
    [FIXED: <path>] for a file changed and written,
    [NO CHANGE: <path>] for an existing file left as it is; then a blank
    line and [Total files fixed: <N>], [N] being the number of [FIXED]
    lines, which is the final counter. *)
Theorem console_output (paths : list str) (disk : gmap (list N) (list N)) :
  stdout (run paths disk) = spec_console (spec_outcomes disk [] paths)
  /\ map fst (spec_outcomes disk [] paths) = paths
  /\ fixed_count (run paths disk) = count_fixed (spec_outcomes disk [] paths).
Proof.
  destruct (run_spec disk paths) as (Ho & Hc & _ & _).
  split; [exact Ho|]. split; [apply spec_outcomes_paths|exact Hc].
Qed.

Lemma missing_file_skipped_witness :
  sample_disk !! py "Missing.java" = None
  /\ loop ([py "A.java"] ++ py "Missing.java" :: [py "B.java"])
       (init sample_disk)
     = loop [py "B.java"]
         (print (py "SKIP: " ++ py "Missing.java" ++ py " not found")
            (loop [py "A.java"] (init sample_disk))).
Proof.
  split; [reflexivity|].
  apply (missing_file_skipped sample_disk [py "A.java"] (py "Missing.java")
           [py "B.java"]).
  reflexivity.
Defined.

(** ** The end-to-end scenario of the specification *)

Example end_to_end_text :
  transform sample_java
  = py "class A extends B {" ++ nl :: py "    A() {" ++ nl
      :: py "        super();" ++ nl :: py "        setWeight(1.0);" ++ nl
      :: py "        setEnabled(false);" ++ nl
      :: py "        super();" ++ nl :: py "        setWeight(3.25);" ++ nl
      :: py "    }" ++ nl :: py "}" ++ [nl].
Proof. vm_compute. reflexivity. Qed.

Example end_to_end_console :
  stdout (run [py "A.java"; py "Missing.java"; py "B.java"; py "A.java"]
            sample_disk)
  = py "FIXED: A.java" ++ nl :: py "SKIP: Missing.java not found" ++ nl
      :: py "NO CHANGE: B.java" ++ nl :: py "NO CHANGE: A.java" ++ nl
      :: nl :: py "Total files fixed: 1" ++ [nl].
Proof. vm_compute. reflexivity. Qed.

(** * Further properties of the script *)

(** ** Helpers *)

Lemma sub_starts_su step L : shaped step L ->
  forall x, exists x', sub step (ch_s :: ch_u :: x) = ch_s :: ch_u :: x'.
Proof.
  intros H x.
  destruct (step (ch_s :: ch_u :: x)) as [[out rest]|] eqn:E.
  - rewrite (sub_hit _ (shaped_progress _ _ H) _ _ _ E).
    destruct (shaped_sound _ _ H _ _ _ E) as (m & _ & HL).
    destruct (shaped_out _ _ H _ _ HL) as (t & -> & _).
    exists (t ++ sub step rest). reflexivity.
  - rewrite (sub_miss _ _ _ E).
    destruct (step (ch_u :: x)) as [[out rest]|] eqn:E'.
    + destruct (shaped_head _ _ H _ _ _ E') as (t & _ & Et). discriminate.
    + rewrite (sub_miss _ _ _ E'). eauto.
Qed.

Lemma merged_fixed_free s :
  sub (first_of step2 step1) s = s ->
  forall t, t `suffix_of` s -> first_of step2 step1 t = None.
Proof.
  pose proof (first_of_progress step2 step1 L2 L1 shaped2 shaped1) as Hp.
  induction s as [|c s Hmiss IH|s out rest Hhit IH]
    using (sub_scan_ind _ Hp); intros H t Ht.
  - apply suffix_nil_inv in Ht as ->.
    destruct (first_of step2 step1 []) as [[o r]|] eqn:E; [|reflexivity].
    apply Hp in E. simpl in E. lia.
  - rewrite (sub_miss _ _ _ Hmiss) in H. injection H as H.
    apply suffix_cons_case in Ht as [->|Ht]; [exact Hmiss|]. apply IH; auto.
  - exfalso. rewrite (sub_hit _ Hp _ _ _ Hhit) in H.
    unfold first_of in Hhit.
    destruct (step2 s) as [[o r]|] eqn:E2.
    + injection Hhit as -> ->.
      destruct (step2_sound _ _ _ E2) as (m & _ & HL).
      pose proof (inert22 _ _ (sub (first_of step2 step1) rest) HL) as Hn.
      rewrite H in Hn. congruence.
    + destruct (step1_sound _ _ _ Hhit) as (m & _ & HL).
      pose proof (inert11 _ _ (sub (first_of step2 step1) rest) HL) as Hn.
      rewrite H in Hn. congruence.
Qed.

Lemma transform_fixed_match_free content :
  transform content = content -> match_free content.
Proof.
  intros H t Ht. unfold transform in H. rewrite rule2_rule1_merge in H.
  pose proof (merged_fixed_free _ H t Ht) as E. unfold first_of in E.
  destruct (step2 t) as [x|]; [discriminate|]. auto.
Qed.

Lemma run_count_writes paths disk :
  fixed_count (run paths disk) = length (writes (run paths disk)).
Proof.
  destruct (run_spec disk paths) as (_ & Hc & Hw & _).
  rewrite Hc, Hw, spec_writes_length. reflexivity.
Qed.

Lemma run_writes_nodup paths disk :
  NoDup (map fst (writes (run paths disk))).
Proof.
  destruct (run_spec disk paths) as (_ & _ & Hw & _).
  rewrite Hw. apply spec_writes_nodup.
Qed.

Lemma run_written_paths paths disk q :
  q ∈ map fst (writes (run paths disk)) <->
  q ∈ paths /\ exists c, disk !! q = Some c /\ transform c <> c.
Proof.
  rewrite list_elem_of_fmap. split.
  - intros ([q' x] & -> & H).
    apply run_writes_elem in H as (Hin & c & Hc & Hne & _). eauto.
  - intros (Hin & c & Hc & Hne). exists (q, transform c).
    split; [reflexivity|]. apply run_writes_elem. eauto 6.
Qed.

(** ** The two patterns *)

(** X1.  The two-argument pattern matches at the head of a text exactly
    when the text starts with [super(], a non-empty run of digits and
    dots, a comma, any whitespace, [true] or [false], any whitespace and
    [);]; group 1 is then the run and group 2 the boolean. *)
Theorem pattern1_matches_exactly (s : str) (g : groups) (rest : str) :
  re_match pattern1 s = Some (g, rest) <->
  exists w ws1 b ws2,
    is_weight w /\ blank ws1 /\ is_bool b /\ blank ws2
    /\ s = text1 w ws1 b ws2 ++ rest /\ g = [(2%nat, b); (1%nat, w)].
Proof.
  split; [apply match1_sound|].
  intros (w & ws1 & b & ws2 & Hw & H1 & Hb & H2 & -> & ->).
  apply match1_complete; assumption.
Qed.

(** X2.  The one-argument pattern matches at the head of a text exactly
    when the text starts with [super(], a non-empty run of digits and
    dots and [);], with nothing between them; group 1 is the run. *)
Theorem pattern2_matches_exactly (s : str) (g : groups) (rest : str) :
  re_match pattern2 s = Some (g, rest) <->
  exists w, is_weight w /\ s = text2 w ++ rest /\ g = [(1%nat, w)].
Proof.
  split; [apply match2_sound|].
  intros (w & Hw & -> & ->). apply match2_complete, Hw.
Qed.

(** ** The transformation *)

(** X3.  Any two-argument call, whatever its weight, boolean and
    whitespace (line breaks included) and whatever stands around it, is
    replaced in place by the three statements carrying that weight and
    that boolean. *)
Theorem rule1_rewrites_in_place (w ws1 b ws2 pre post : str) :
  is_weight w -> blank ws1 -> is_bool b -> blank ws2 ->
  transform (pre ++ text1 w ws1 b ws2 ++ post)
  = transform pre
      ++ (py "super();" ++ nl :: py "        setWeight(" ++ w ++ py ");"
            ++ nl :: py "        setEnabled(" ++ b ++ py ");")
      ++ transform post.
Proof.
  intros Hw H1 Hb H2. apply transform_text1.
  exists w, ws1, b, ws2. auto 10.
Qed.

Lemma rule1_rewrites_in_place_witness :
  is_weight (py "10") /\ blank (nl :: py "   ") /\ is_bool (py "false")
  /\ blank []
  /\ transform (py "this." ++ (py "super(10," ++ nl :: py "   false);")
                  ++ py " x();")
     = py "this."
         ++ (py "super();" ++ nl :: py "        setWeight(10);"
               ++ nl :: py "        setEnabled(false);")
         ++ py " x();".
Proof.
  assert (Hw : is_weight (py "10"))
    by (split; [discriminate|apply Forall_forallb; reflexivity]).
  assert (H1 : blank (nl :: py "   ")) by (apply Forall_forallb; reflexivity).
  assert (Hb : is_bool (py "false")) by (right; reflexivity).
  assert (H2 : blank []) by constructor.
  split; [exact Hw|]. split; [exact H1|]. split; [exact Hb|].
  split; [exact H2|].
  exact (rule1_rewrites_in_place (py "10") (nl :: py "   ") (py "false") []
           (py "this.") (py " x();") Hw H1 Hb H2).
Defined.

(** X4.  Any one-argument call, whatever its weight and whatever stands
    around it, is replaced in place by the two statements carrying that
    weight. *)
Theorem rule2_rewrites_in_place (w pre post : str) :
  is_weight w ->
  transform (pre ++ text2 w ++ post)
  = transform pre
      ++ (py "super();" ++ nl :: py "        setWeight(" ++ w ++ py ");")
      ++ transform post.
Proof.
  intros Hw. apply transform_text2. exists w. auto.
Qed.

Lemma rule2_rewrites_in_place_witness :
  is_weight (py "3.25")
  /\ transform (py "my" ++ py "super(3.25);" ++ py "}")
     = py "my" ++ (py "super();" ++ nl :: py "        setWeight(3.25);")
         ++ py "}".
Proof.
  assert (Hw : is_weight (py "3.25"))
    by (split; [discriminate|apply Forall_forallb; reflexivity]).
  split; [exact Hw|].
  exact (rule2_rewrites_in_place (py "3.25") (py "my") (py "}") Hw).
Defined.

(** X5.  No match runs across the start of an [su]: a text can be cut in
    front of any [su] and the two parts transformed on their own. *)
Theorem transform_splits_before_su (a x : str) :
  transform (a ++ py "su" ++ x) = transform a ++ transform (py "su" ++ x).
Proof.
  change (py "su" ++ x) with (ch_s :: ch_u :: x).
  unfold transform, rule1, rule2, re_sub. fold step1 step2.
  rewrite (sub_split_su step1 L1 shaped1 a x).
  destruct (sub_starts_su step1 L1 shaped1 x) as [x' E]. rewrite E.
  apply (sub_split_su step2 L2 shaped2).
Qed.

(** X6.  The two passes amount to one pass: a single scan from left to
    right that tries both patterns at each position, in either order,
    gives the transformed text. *)
Theorem transform_is_one_scan (content : str) :
  transform content = sub (first_of step1 step2) content
  /\ transform content = sub (first_of step2 step1) content.
Proof.
  split; [|apply rule2_rule1_merge].
  unfold transform. rewrite <- rules_commute. apply rule1_rule2_merge.
Qed.

(** X7.  Each rule alone is idempotent, and its output has no match of
    its own pattern left. *)
Theorem rules_idempotent_alone (content : str) :
  rule1 (rule1 content) = rule1 content
  /\ rule2 (rule2 content) = rule2 content
  /\ re_search pattern1 (rule1 content) = None
  /\ re_search pattern2 (rule2 content) = None.
Proof.
  assert (F1 : forall t, t `suffix_of` rule1 content -> step1 t = None).
  { apply (sub_no_new_match step1 step1 L1 L1 shaped1 shaped1 inert11). auto. }
  assert (F2 : forall t, t `suffix_of` rule2 content -> step2 t = None).
  { apply (sub_no_new_match step2 step2 L2 L2 shaped2 shaped2 inert22). auto. }
  split; [exact (sub_id _ step1_progress _ F1)|].
  split; [exact (sub_id _ step2_progress _ F2)|].
  split; apply re_search_None; intros t Ht.
  - apply (step_None pattern1 replace_two_params t), F1, Ht.
  - apply (step_None pattern2 replace_one_param t), F2, Ht.
Qed.

(** X8.  The text is left as it is exactly when neither pattern matches
    anywhere in it: the comparison of the new text with the old one
    detects every rewrite. *)
Theorem unchanged_iff_no_occurrence (content : str) :
  transform content = content <->
  re_search pattern1 content = None /\ re_search pattern2 content = None.
Proof.
  rewrite <- match_free_search. split.
  - apply transform_fixed_match_free.
  - apply match_free_transform.
Qed.

(** ** The run over the files *)

(** X9.  After a run each listed file that exists holds the transform of
    its text, every other file holds its text, and no path is created
    or removed. *)
Theorem run_final_files (paths : list str) (disk : gmap (list N) (list N))
    (q : str) :
  fs (run paths disk) !! q
  = (if decide (q ∈ paths) then transform <$> disk !! q else disk !! q)
  /\ (fs (run paths disk) !! q = None <-> disk !! q = None).
Proof.
  rewrite run_lookup. split; [reflexivity|].
  destruct (decide (q ∈ paths)); [|reflexivity].
  destruct (disk !! q); simpl; split; congruence.
Qed.

(** X10.  After a run no listed file has a match of either pattern
    left. *)
Theorem run_leaves_no_occurrence (paths : list str)
    (disk : gmap (list N) (list N)) (p c : str) :
  p ∈ paths -> fs (run paths disk) !! p = Some c ->
  re_search pattern1 c = None /\ re_search pattern2 c = None.
Proof.
  intros Hin Hc. rewrite run_lookup, decide_True in Hc by exact Hin.
  destruct (disk !! p) as [c0|]; [|discriminate].
  injection Hc as <-. apply match_free_search, transform_match_free.
Qed.

Lemma run_leaves_no_occurrence_witness :
  py "A.java" ∈ [py "A.java"; py "B.java"]
  /\ fs (run [py "A.java"; py "B.java"] sample_disk) !! py "A.java"
     = Some (transform sample_java)
  /\ re_search pattern1 (transform sample_java) = None
  /\ re_search pattern2 (transform sample_java) = None.
Proof.
  assert (Hin : py "A.java" ∈ [py "A.java"; py "B.java"]) by left.
  assert (Hc : fs (run [py "A.java"; py "B.java"] sample_disk) !! py "A.java"
               = Some (transform sample_java)) by (vm_compute; reflexivity).
  split; [exact Hin|]. split; [exact Hc|].
  exact (run_leaves_no_occurrence [py "A.java"; py "B.java"] sample_disk
           (py "A.java") (transform sample_java) Hin Hc).
Defined.

(** X11.  A run writes a file exactly when the file is listed, exists
    and has a match of one of the two patterns in its text. *)
Theorem written_iff_occurrence (paths : list str)
    (disk : gmap (list N) (list N)) (p : str) :
  p ∈ map fst (writes (run paths disk)) <->
  p ∈ paths
  /\ exists c, disk !! p = Some c
       /\ (re_search pattern1 c <> None \/ re_search pattern2 c <> None).
Proof.
  rewrite run_written_paths. split.
  - intros (Hin & c & Hc & Hne). split; [exact Hin|]. exists c.
    split; [exact Hc|].
    destruct (re_search pattern1 c) eqn:E1; [left; discriminate|].
    destruct (re_search pattern2 c) eqn:E2; [right; discriminate|].
    exfalso. apply Hne, match_free_transform, match_free_search. auto.
  - intros (Hin & c & Hc & Hocc). split; [exact Hin|]. exists c.
    split; [exact Hc|]. intros Heq.
    apply transform_fixed_match_free, match_free_search in Heq as [E1 E2].
    destruct Hocc as [H|H]; contradiction.
Qed.

(** X12.  Running the script again on the files it left behind changes
    nothing: no file is written, every file keeps its text, no line says
    [FIXED] and the total is 0. *)
Theorem second_run_noop (paths : list str) (disk : gmap (list N) (list N)) :
  writes (run paths (fs (run paths disk))) = []
  /\ fs (run paths (fs (run paths disk))) = fs (run paths disk)
  /\ fixed_count (run paths (fs (run paths disk))) = 0%nat
  /\ stdout (run paths (fs (run paths disk)))
     = spec_lines (spec_outcomes (fs (run paths disk)) [] paths)
         ++ nl :: py "Total files fixed: 0" ++ [nl]
  /\ count_fixed (spec_outcomes (fs (run paths disk)) [] paths) = 0%nat.
Proof.
  assert (Hw : writes (run paths (fs (run paths disk))) = []).
  { destruct (writes (run paths (fs (run paths disk)))) as [|[q x] l] eqn:E;
      [reflexivity|exfalso].
    assert (Hin : (q, x) ∈ writes (run paths (fs (run paths disk))))
      by (rewrite E; left).
    apply run_writes_elem in Hin as (Hin & c & Hc & Hne & _).
    rewrite run_lookup, decide_True in Hc by exact Hin.
    destruct (disk !! q) as [c0|]; [|discriminate].
    injection Hc as <-. apply Hne, transform_idem. }
  assert (Hc : fixed_count (run paths (fs (run paths disk))) = 0%nat)
    by (rewrite run_count_writes, Hw; reflexivity).
  destruct (run_spec (fs (run paths disk)) paths) as (Ho & Hc' & _ & _).
  split; [exact Hw|]. split; [|split; [exact Hc|]].
  - apply map_eq. intros q. rewrite !run_lookup.
    destruct (decide (q ∈ paths)); [|reflexivity].
    destruct (disk !! q); simpl; [|reflexivity].
    rewrite transform_idem. reflexivity.
  - rewrite <- Hc', Hc. split; [|reflexivity].
    rewrite Ho. unfold spec_console. rewrite <- Hc', Hc. reflexivity.
Qed.

(** X13.  Two lists with the same paths, in any order and with any
    repetitions, leave the same files behind and report the same
    total. *)
Theorem run_order_irrelevant (paths paths' : list str)
    (disk : gmap (list N) (list N)) :
  (forall q, q ∈ paths <-> q ∈ paths') ->
  fs (run paths disk) = fs (run paths' disk)
  /\ fixed_count (run paths disk) = fixed_count (run paths' disk).
Proof.
  intros H. split.
  - apply map_eq. intros q. rewrite !run_lookup.
    destruct (decide (q ∈ paths)) as [Hq|Hq];
      destruct (decide (q ∈ paths')) as [Hq'|Hq']; try reflexivity;
      exfalso; apply H in Hq || apply H in Hq'; contradiction.
  - rewrite !run_count_writes.
    rewrite <- (length_map fst (writes (run paths disk))).
    rewrite <- (length_map fst (writes (run paths' disk))).
    apply Permutation_length, NoDup_Permutation; try apply run_writes_nodup.
    intros q. rewrite !run_written_paths, H. reflexivity.
Qed.

Lemma run_order_irrelevant_witness :
  (forall q, q ∈ [py "A.java"; py "B.java"; py "A.java"]
             <-> q ∈ [py "B.java"; py "A.java"])
  /\ fs (run [py "A.java"; py "B.java"; py "A.java"] sample_disk)
     = fs (run [py "B.java"; py "A.java"] sample_disk)
  /\ fixed_count (run [py "A.java"; py "B.java"; py "A.java"] sample_disk)
     = fixed_count (run [py "B.java"; py "A.java"] sample_disk).
Proof.
  assert (H : forall q, q ∈ [py "A.java"; py "B.java"; py "A.java"]
                        <-> q ∈ [py "B.java"; py "A.java"]).
  { intros q. rewrite !elem_of_cons. pose proof (not_elem_of_nil q). tauto. }
  split; [exact H|].
  exact (run_order_irrelevant [py "A.java"; py "B.java"; py "A.java"]
           [py "B.java"; py "A.java"] sample_disk H).
Defined.

(** X14.  In every run the counter is the number of writes, each
    written path is written once, and the total is at most the number
    of listed paths. *)
Theorem total_is_write_count (paths : list str)
    (disk : gmap (list N) (list N)) :
  fixed_count (run paths disk) = length (writes (run paths disk))
  /\ NoDup (map fst (writes (run paths disk)))
  /\ (fixed_count (run paths disk) <= length paths)%nat.
Proof.
  split; [apply run_count_writes|]. split; [apply run_writes_nodup|].
  destruct (run_spec disk paths) as (_ & Hc & _ & _). rewrite Hc.
  unfold count_fixed.
  rewrite <- (spec_outcomes_paths disk paths []) at 2.
  rewrite length_map. apply length_filter.
Qed.
